(** * ssanta: the assignment search and the password generator of app.py

    A shallow embedding of [find_assignment], [gen_password_christmas] and
    of the row check of the [admin_matrix] route, with the module [random]
    of the Python standard library modelled as an oracle; then of the
    routes admin_start, admin_matrix and admin_generate over the stored
    data, and of the normalisation of the database URL. *)

From Stdlib Require Import ZArith DecimalString Ascii.
From stdpp Require Import gmap strings list fin_maps.

Open Scope string_scope.

(** ** Exceptions and results *)

(** The only exception the modelled code can raise: a list subscript out of
    range. *)
Inductive exn : Type :=
| IndexError.

Inductive result (A : Type) : Type :=
| Ok (a : A)
| Raise (e : exn).
Arguments Ok {A} a.
Arguments Raise {A} e.

(** ** The random source

    [random] is a process-wide generator.  Its behaviour is an oracle
    [rnd : nat -> nat]: the k-th elementary draw [_randbelow(m)] of the run
    yields [rnd k mod m], so that every sequence of answers within range is
    the behaviour of some oracle.  The state counts the elementary draws
    consumed and, as instrumentation, the calls of [random.shuffle]. *)
Definition rng : Type := nat -> nat.

Record rstate : Type := mk_rstate {
  cursor : nat;
  shuffle_calls : nat
}.

(** Code that draws nothing: a value or an exception. *)
Definition bindR {A B} (r : result A) (k : A -> result B) : result B :=
  match r with
  | Ok a => k a
  | Raise e => Raise e
  end.

Notation "'let?' x ':=' r 'in' k" := (bindR r (fun x => k))
  (at level 10, x name, r at level 100, k at level 200).

(** A subscript [l[i]] with [0 <= i]: the element, or IndexError. *)
Definition subscript {A} (l : list A) (i : nat) : result A :=
  match l !! i with
  | Some a => Ok a
  | None => Raise IndexError
  end.

(** Computations that read the random source and may raise. *)
Definition M (A : Type) : Type := rstate -> result A * rstate.

Definition lift {A} (r : result A) : M A := fun st => (r, st).

Definition ret {A} (a : A) : M A := fun st => (Ok a, st).

Definition raise {A} (e : exn) : M A := fun st => (Raise e, st).

Definition bind {A B} (m : M A) (k : A -> M B) : M B :=
  fun st =>
    match m st with
    | (Ok a, st') => k a st'
    | (Raise e, st') => (Raise e, st')
    end.

Notation "'let*' x ':=' m 'in' k" := (bind m (fun x => k))
  (at level 10, x name, m at level 100, k at level 200).

(** ** The loops of find_assignment that draw nothing *)

(** [for i, j in enumerate(perm): if compat_matrix[i][j] != 1: ...]:
    [true] when the loop ends with [ok] still set. *)
Fixpoint check_from (compat_matrix : list (list Z)) (i : nat) (perm : list nat)
  : result bool :=
  match perm with
  | [] => Ok true
  | j :: perm' =>
      let? row := subscript compat_matrix i in
      let? c := subscript row j in
      if decide (c ≠ 1%Z) then Ok false
      else check_from compat_matrix (S i) perm'
  end.

(** [{names[i]: names[perm[i]] for i in range(n)}], the keys inserted in
    the order of [range(n)]. *)
Fixpoint build_mapping (names : list string) (perm : list nat)
    (indices : list nat) (d : gmap string string) : result (gmap string string) :=
  match indices with
  | [] => Ok d
  | i :: indices' =>
      let? key := subscript names i in
      let? p := subscript perm i in
      let? target := subscript names p in
      build_mapping names perm indices' (<[key:=target]> d)
  end.

(** ** The vocabulary of gen_password_christmas *)

Definition adjectifs : list string :=
  [ "joyeux"; "blanc"; "rouge"; "vert"; "dore"; "argente"; "brillant";
    "festif"; "magique"; "hivernal"; "sucre"; "gourmand"; "glace";
    "etincelant"; "lumineux";
    "merveilleux"; "etonnant"; "petillant"; "enchante"; "radieux";
    "epique"; "fantastique" ].

Definition noms : list string :=
  [ "sapin"; "renne"; "lutin"; "traineau"; "bonnet"; "cadeau";
    "houx"; "flocon"; "pain_depice";
    "ours"; "elfe"; "jouet"; "carillon";
    "bonhomme";
    "ruban"; "pere_noel"; "rudolf" ].

(** [str(n)] for a natural number. *)
Definition str_of_nat (n : nat) : string :=
  NilEmpty.string_of_uint (Nat.to_uint n).

(** ** The row check of the admin_matrix route (POST)

    The submitted form is a predicate: [form i j] holds when
    [request.form.get(f"c_{i}_{j}") == "on"]. *)

(** [sum(row)] *)
Definition sum (row : list Z) : Z := foldl Z.add 0%Z row.

(** [compat[i][j] = v], both subscripts in range. *)
Definition set_entry (compat : list (list Z)) (i j : nat) (v : Z) : list (list Z) :=
  match compat !! i with
  | Some row => <[i:=<[j:=v]> row]> compat
  | None => compat
  end.

(** [compat = [[0]*n for _ in range(n)]] and the two nested loops filling it. *)
Definition form_matrix (n : nat) (form : nat -> nat -> bool) : list (list Z) :=
  foldl (fun compat i =>
           foldl (fun compat j =>
                    set_entry compat i j (if form i j then 1%Z else 0%Z))
                 compat (seq 0 n))
        (replicate n (replicate n 0%Z)) (seq 0 n).

(** [for i in range(n): if sum(compat[i]) == 0: ... return]: the name of the
    first participant whose row is empty, if any. *)
Fixpoint first_empty_row (names : list string) (compat : list (list Z))
    (indices : list nat) : result (option string) :=
  match indices with
  | [] => Ok None
  | i :: indices' =>
      let? row := subscript compat i in
      if decide (sum row = 0%Z) then
        let? name := subscript names i in Ok (Some name)
      else first_empty_row names compat indices'
  end.

Inductive matrix_outcome : Type :=
| RedirectStart
    (* no names stored: redirect to admin_start *)
| EmptyRow (name : string) (compat : list (list Z))
    (* flash "Le participant {name} ne peut offrir à personne", form shown
       again, nothing stored *)
| Stored (compat : list (list Z)).
    (* db_set_config("compat", compat), redirect to admin_generate *)

Definition admin_matrix_post (names : list string) (form : nat -> nat -> bool)
  : result matrix_outcome :=
  match names with
  | [] => Ok RedirectStart
  | _ :: _ =>
      let n := length names in
      let compat := form_matrix n form in
      let? r := first_empty_row names compat (seq 0 n) in
      match r with
      | Some name => Ok (EmptyRow name compat)
      | None => Ok (Stored compat)
      end
  end.

Section RandomModule.
Variable rnd : rng.

(** [random._randbelow(m)], for [m > 0]. *)
Definition randbelow (m : nat) : M nat :=
  fun st => (Ok (rnd (cursor st) mod m),
             mk_rstate (S (cursor st)) (shuffle_calls st)).

(** [x[i], x[j] = x[j], x[i]] *)
Definition swap {A} (x : list A) (i j : nat) : list A :=
  match x !! i, x !! j with
  | Some a, Some b => <[j:=a]> (<[i:=b]> x)
  | _, _ => x
  end.

(** The loop of [random.shuffle]:
    [for i in reversed(range(1, len(x))): j = randbelow(i + 1); swap]. *)
Fixpoint shuffle_loop {A} (i : nat) (x : list A) : M (list A) :=
  match i with
  | O => ret x
  | S i' =>
      let* j := randbelow (S i) in
      shuffle_loop i' (swap x i j)
  end.

Definition shuffle {A} (x : list A) : M (list A) :=
  fun st =>
    shuffle_loop (length x - 1) x
      (mk_rstate (cursor st) (S (shuffle_calls st))).

(** [random.choice(seq)]: [seq[randbelow(len(seq))]], IndexError on an
    empty sequence. *)
Definition choice {A} (l : list A) : M A :=
  match l with
  | [] => raise IndexError
  | _ :: _ => let* i := randbelow (length l) in lift (subscript l i)
  end.

(** [random.randint(a, b)] with [a <= b]: [a + randbelow(b - a + 1)]. *)
Definition randint (a b : nat) : M nat :=
  let* r := randbelow (b - a + 1) in ret (a + r).

(** ** gen_password_christmas *)

(** [f"{random.choice(adjectifs)}_{random.choice(noms)}"] *)
Definition draw_candidate : M string :=
  let* a := choice adjectifs in
  let* b := choice noms in
  ret (a +:+ "_" +:+ b).

(** [f"{random.choice(adjectifs)}_{random.choice(noms)}_{random.randint(10,99)}"] *)
Definition draw_fallback : M string :=
  let* a := choice adjectifs in
  let* b := choice noms in
  let* k := randint 10 99 in
  ret (a +:+ "_" +:+ b +:+ "_" +:+ str_of_nat k).

(** [for _ in range(attempts): ...] followed by the fallback return. *)
Fixpoint password_loop (attempts : nat) (existing_set : gset string) : M string :=
  match attempts with
  | O => draw_fallback
  | S attempts' =>
      let* candidate := draw_candidate in
      if decide (candidate ∉ existing_set) then ret candidate
      else password_loop attempts' existing_set
  end.

Definition gen_password_christmas (existing_set : option (gset string)) : M string :=
  let existing_set :=
    match existing_set with
    | None => ∅
    | Some s => s
    end in
  password_loop 100 existing_set.

(** ** find_assignment *)

(** [for _ in range(max_tries): ...] followed by [return None]; every turn
    shuffles a copy of [idx], tests it, and returns the mapping when the
    test passed. *)
Fixpoint search (names : list string) (compat_matrix : list (list Z))
    (idx : list nat) (tries : nat) : M (option (gmap string string)) :=
  match tries with
  | O => ret None
  | S tries' =>
      let* perm := shuffle idx in
      let* ok := lift (check_from compat_matrix 0 perm) in
      if ok then
        let* d := lift (build_mapping names perm (seq 0 (length names)) ∅) in
        ret (Some d)
      else search names compat_matrix idx tries'
  end.

Definition find_assignment (names : list string) (compat_matrix : list (list Z))
    (max_tries : Z) : M (option (gmap string string)) :=
  let n := length names in
  if decide (n = 0) then ret (Some ∅)
  else search names compat_matrix (seq 0 n) (Z.to_nat max_tries).

End RandomModule.

Definition default_max_tries : Z := 100000.

Definition st0 : rstate := mk_rstate 0 0.

(** * The rest of app.py *)

(** ** The database URL (module level)

    [os.environ.get("DATABASE_URL")] is [None] or a string. *)

Definition sqlite_url : string := "sqlite:///./secret_santa.db".

(** [s[n:]] *)
Fixpoint string_drop (n : nat) (s : string) : string :=
  match n, s with
  | O, _ => s
  | S _, EmptyString => EmptyString
  | S n', String _ s' => string_drop n' s'
  end.

(** [s.replace(old, new, 1)] for a non-empty [old]: the leftmost occurrence
    of [old] is replaced. *)
Fixpoint replace_first (old new s : string) : string :=
  if String.prefix old s then new +:+ string_drop (String.length old) s
  else match s with
       | EmptyString => EmptyString
       | String c s' => String c (replace_first old new s')
       end.

(** The value of [DATABASE_URL] handed to [create_engine]. *)
Definition database_url (env : option string) : string :=
  let url :=
    match env with
    | None => sqlite_url
    | Some EmptyString => sqlite_url
    | Some s => s
    end in
  if String.prefix "postgres://" url then
    replace_first "postgres://" "postgresql+psycopg://" url
  else if String.prefix "postgresql://" url
          && negb (String.prefix "postgresql+" url) then
    replace_first "postgresql://" "postgresql+psycopg://" url
  else url.

(** ** The stored data

    The table [config] is read and written under the two keys ["names"] and
    ["compat"] only, and [participants] has the name as its primary key:
    the database is a record of the two configuration values ([None] when
    the row is missing) and a map from names to rows.  A stored value is
    read back as it was written; failures of the storage itself and the
    length limits of the columns are not modelled. *)

Record participant_info : Type := mk_info {
  target : string;
  password : string
}.

Record db : Type := mk_db {
  cfg_names : option (list string);
  cfg_compat : option (list (list Z));
  participants : gmap string participant_info
}.

(** The database before anything is stored. *)
Definition empty_db : db := mk_db None None ∅.

(** [db_get_config("names") or []] *)
Definition names_of (d : db) : list string :=
  match cfg_names d with
  | None => []
  | Some names => names
  end.

(** [db_get_config("compat") or []] *)
Definition compat_of (d : db) : list (list Z) :=
  match cfg_compat d with
  | None => []
  | Some compat => compat
  end.

(** ** admin_start (POST) *)

(** [raw.replace(",", "\n")]: every comma becomes a line feed. *)
Fixpoint commas_to_newlines (raw : string) : string :=
  match raw with
  | EmptyString => EmptyString
  | String c raw' =>
      String (if Ascii.eqb c "," then "010"%char else c)
             (commas_to_newlines raw')
  end.

(** The loop that keeps the first occurrence of every line. *)
Fixpoint keep_first (lines names : list string) (seen : gset string)
  : list string :=
  match lines with
  | [] => names
  | l :: lines' =>
      if decide (l ∉ seen) then keep_first lines' (names ++ [l]) ({[l]} ∪ seen)
      else keep_first lines' names seen
  end.

Inductive start_outcome : Type :=
| TooFewNames
    (* flash "Il faut au moins 2 participants.", form shown again *)
| NamesSaved (names : list string).
    (* names stored, redirect to admin_matrix *)

Section StrMethods.
(** [str.splitlines] and [str.strip] of the Python standard library. *)
Variable splitlines : string -> list string.
Variable strip : string -> string.

(** [[l.strip() for l in raw.replace(",", "\n").splitlines() if l.strip()]] *)
Definition submitted_lines (raw : string) : list string :=
  strip <$> filter (fun l => strip l <> "") (splitlines (commas_to_newlines raw)).

Definition admin_start_post (raw : string) (d : db) : start_outcome * db :=
  let names := keep_first (submitted_lines raw) [] ∅ in
  if decide (length names < 2) then (TooFewNames, d)
  else (NamesSaved names, mk_db (Some names) (Some []) ∅).

End StrMethods.

(** ** admin_matrix with the database *)

(** [compat = [[1]*n for _ in range(n)]] and [compat[i][i] = 0] for every
    [i]: the matrix shown when none is stored. *)
Definition default_matrix (n : nat) : list (list Z) :=
  foldl (fun compat i => set_entry compat i i 0%Z)
        (replicate n (replicate n 1%Z)) (seq 0 n).

(** GET: the matrix shown, or [None] for the redirection to admin_start. *)
Definition admin_matrix_get (d : db) : option (list (list Z)) :=
  match names_of d with
  | [] => None
  | _ :: _ =>
      match compat_of d with
      | [] => Some (default_matrix (length (names_of d)))
      | _ :: _ => Some (compat_of d)
      end
  end.

(** POST: [db_set_config("compat", compat)] when no row is empty. *)
Definition admin_matrix_store (form : nat -> nat -> bool) (d : db)
  : result (matrix_outcome * db) :=
  let? out := admin_matrix_post (names_of d) form in
  match out with
  | Stored compat =>
      Ok (out, mk_db (cfg_names d) (Some compat) (participants d))
  | _ => Ok (out, d)
  end.

(** ** admin_generate *)

(** What a route can end with: a response, an exception of the core, or the
    KeyError of a dictionary subscript. *)
Inductive route_result (A : Type) : Type :=
| Done (a : A)
| Failed (e : exn)
| KeyError (key : string).
Arguments Done {A} a.
Arguments Failed {A} e.
Arguments KeyError {A} key.

Inductive generate_outcome : Type :=
| MissingData
    (* flash "Données manquantes", redirect to admin_start *)
| NoAssignment
    (* flash "Impossible de trouver une affectation", redirect to admin_matrix *)
| Generated (saved : gmap string participant_info).
    (* participants stored, results page *)

Section Generate.
Variable rnd : rng.

(** [for name in names: pw = gen_password_christmas(existing);
    existing.add(pw); participants[name] = {"target": assignment[name],
    "password": pw}] *)
Fixpoint issue_passwords (assignment : gmap string string) (names : list string)
    (existing : gset string) (records : gmap string participant_info)
    (st : rstate) : route_result (gmap string participant_info) * rstate :=
  match names with
  | [] => (Done records, st)
  | name :: names' =>
      match gen_password_christmas rnd (Some existing) st with
      | (Raise e, st') => (Failed e, st')
      | (Ok pw, st') =>
          match assignment !! name with
          | None => (KeyError name, st')
          | Some t =>
              issue_passwords assignment names' ({[pw]} ∪ existing)
                (<[name:=mk_info t pw]> records) st'
          end
      end
  end.

Definition admin_generate (d : db) (st : rstate)
  : route_result (generate_outcome * db) * rstate :=
  let names := names_of d in
  let compat := compat_of d in
  match names, compat with
  | [], _ | _, [] => (Done (MissingData, d), st)
  | _ :: _, _ :: _ =>
      match find_assignment rnd names compat 100000 st with
      | (Raise e, st') => (Failed e, st')
      | (Ok None, st') => (Done (NoAssignment, d), st')
      | (Ok (Some assignment), st') =>
          match issue_passwords assignment names ∅ ∅ st' with
          | (Done records, st'') =>
              (Done (Generated records,
                     mk_db (cfg_names d) (cfg_compat d) records), st'')
          | (Failed e, st'') => (Failed e, st'')
          | (KeyError key, st'') => (KeyError key, st'')
          end
      end
  end.

End Generate.

(** The states of the database that the three admin routes can produce,
    starting from the empty database, when the requests are handled one at
    a time (the other routes store nothing). *)
Inductive reachable (splitlines : string -> list string)
    (strip : string -> string) : db -> Prop :=
| reach_empty : reachable splitlines strip empty_db
| reach_start raw d :
    reachable splitlines strip d ->
    reachable splitlines strip (admin_start_post splitlines strip raw d).2
| reach_matrix form d out d' :
    reachable splitlines strip d ->
    admin_matrix_store form d = Ok (out, d') ->
    reachable splitlines strip d'
| reach_generate rnd d st out d' st' :
    reachable splitlines strip d ->
    admin_generate rnd d st = (Done (out, d'), st') ->
    reachable splitlines strip d'.

(** A password of the fallback: two words of the lists and a number from 10
    to 99. *)
Definition fallback_shaped (s : string) : Prop :=
  exists a b k, a ∈ adjectifs /\ b ∈ noms /\ 10 <= k <= 99
                /\ s = a +:+ "_" +:+ b +:+ "_" +:+ str_of_nat k.

(** What the routes keep true of the stored data: the names are distinct
    and none or at least two, the matrix is missing (or empty) or an n x n
    matrix of zeros and ones without a row summing to zero, and the
    participants stored are none or one for every name. *)
Definition db_ok (d : db) : Prop :=
  NoDup (names_of d)
  /\ (names_of d = [] \/ 2 <= length (names_of d))
  /\ (compat_of d = []
      \/ (length (compat_of d) = length (names_of d)
          /\ Forall (fun row => length row = length (names_of d)) (compat_of d)
          /\ Forall (Forall (fun c => c = 0%Z \/ c = 1%Z)) (compat_of d)
          /\ Forall (fun row => sum row <> 0%Z) (compat_of d)))
  /\ (participants d = ∅
      \/ dom (participants d) = list_to_set (names_of d)).

(** Two participants share a password only if it is one of the fallback. *)
Definition shared_only_fallback (records : gmap string participant_info)
  : Prop :=
  forall n1 n2 i1 i2,
    n1 <> n2 -> records !! n1 = Some i1 -> records !! n2 = Some i2 ->
    password i1 = password i2 -> fallback_shaped (password i1).

(** For the runs of [admin_start_post] below: a splitter that cuts at line
    feeds only, which is what [str.splitlines] does on a text without other
    line boundaries. *)
Fixpoint split_at_newlines (cur : string) (s : string) : list string :=
  match s with
  | EmptyString => if decide (cur = "") then [] else [String.rev cur]
  | String c s' =>
      if Ascii.eqb c "010"%char then String.rev cur :: split_at_newlines "" s'
      else split_at_newlines (String c cur) s'
  end.

(** The database after the names A and B and the matrix [[0,1],[1,0]]
    were submitted. *)
Definition db_ab : db :=
  mk_db (Some ["A"; "B"]) (Some [[0; 1]; [1; 0]]%Z) ∅.

(** * Vocabulary of the statements *)

(** What one run of the loop leaves behind: [k] shuffles were made, and the
    result is explained by the last candidate drawn. *)
Definition search_outcome (names : list string) (compat : list (list Z))
    (idx : list nat) (tries : nat) (st : rstate)
    (out : result (option (gmap string string)) * rstate) : Prop :=
  exists k, k <= tries
    /\ shuffle_calls out.2 = shuffle_calls st + k
    /\ cursor out.2 = cursor st + k * (length idx - 1)
    /\ match out.1 with
       | Ok None => k = tries
       | Ok (Some d) =>
           exists perm, perm ≡ₚ idx
             /\ check_from compat 0 perm = Ok true
             /\ build_mapping names perm (seq 0 (length names)) ∅ = Ok d
       | Raise e =>
           exists perm, perm ≡ₚ idx
             /\ (check_from compat 0 perm = Raise e
                 \/ check_from compat 0 perm = Ok true
                    /\ build_mapping names perm (seq 0 (length names)) ∅
                       = Raise e)
       end.

(** Two names that must swap. *)
Definition names_ab : list string := ["A"; "B"].
Definition compat_ab : list (list Z) := [[0; 1]; [1; 0]]%Z.
Definition mapping_ab : gmap string string := {["A" := "B"; "B" := "A"]}.

(** One shuffle more: one draw and one call. *)
Definition next_shuffle2 (st : rstate) : rstate :=
  mk_rstate (S (cursor st)) (S (shuffle_calls st)).

(** [existing_set], with [None] replaced by the empty set. *)
Definition issued (existing_set : option (gset string)) : gset string :=
  match existing_set with
  | None => ∅
  | Some s => s
  end.

(** The candidate drawn by iteration [t] (counted from 0) of a loop entered
    in the state [st]: every iteration consumes two elementary draws. *)
Definition candidate (rnd : rng) (st : rstate) (t : nat) : result string :=
  (draw_candidate rnd (mk_rstate (cursor st + 2 * t) (shuffle_calls st))).1.

(** The state after [draws] more elementary draws. *)
Definition advance (st : rstate) (draws : nat) : rstate :=
  mk_rstate (cursor st + draws) (shuffle_calls st).

(** An n x n matrix. *)
Definition square (n : nat) (compat : list (list Z)) : Prop :=
  length compat = n /\ Forall (fun row => length row = n) compat.

(** A matrix of zeros and ones. *)
Definition zero_one (compat : list (list Z)) : Prop :=
  Forall (Forall (fun c => c = 0%Z \/ c = 1%Z)) compat.

(** A matrix whose first row sums to zero. *)
Definition compat_zero_row : list (list Z) := [[0; 0]; [1; 0]]%Z.

(** * Facts about the model *)

(** Closed decidable statements are settled by evaluation. *)
Ltac by_evaluation := apply (bool_decide_unpack _); vm_compute; exact I.

(** ** Runs of the model *)

Example shuffle_four :
  shuffle (fun k => k) [0; 1; 2; 3] st0 = (Ok [2; 3; 1; 0], mk_rstate 3 1).
Proof. reflexivity. Qed.

Example find_assignment_first_derangement :
  find_assignment (fun _ => 0) ["A"; "B"; "C"]
    [[0; 1; 1]; [1; 0; 1]; [1; 1; 0]]%Z default_max_tries st0
  = (Ok (Some {["A" := "B"; "B" := "C"; "C" := "A"]}), mk_rstate 2 1).
Proof. vm_compute. reflexivity. Qed.

Example find_assignment_second_derangement :
  find_assignment (fun k => 1 - k) ["A"; "B"; "C"]
    [[0; 1; 1]; [1; 0; 1]; [1; 1; 0]]%Z default_max_tries st0
  = (Ok (Some {["A" := "C"; "B" := "A"; "C" := "B"]}), mk_rstate 2 1).
Proof. vm_compute. reflexivity. Qed.

Example find_assignment_single_name :
  find_assignment (fun _ => 0) ["A"] [[0]]%Z 3 st0
  = (Ok None, mk_rstate 0 3).
Proof. vm_compute. reflexivity. Qed.

Example find_assignment_same_name_twice :
  find_assignment (fun _ => 0) ["A"; "A"] [[1; 1]; [1; 1]]%Z 3 st0
  = (Ok (Some {["A" := "A"]}), mk_rstate 1 1).
Proof. vm_compute. reflexivity. Qed.

Example form_matrix_two :
  form_matrix 2 (fun i j => Nat.eqb i 1 && Nat.eqb j 0) = [[0; 0]; [1; 0]]%Z.
Proof. reflexivity. Qed.

Example admin_matrix_post_rejects :
  admin_matrix_post ["A"; "B"] (fun i j => Nat.eqb i 1 && Nat.eqb j 0)
  = Ok (EmptyRow "A" [[0; 0]; [1; 0]]%Z).
Proof. reflexivity. Qed.

Example admin_matrix_post_stores :
  admin_matrix_post ["A"; "B"] (fun i j => negb (Nat.eqb i j))
  = Ok (Stored [[0; 1]; [1; 0]]%Z).
Proof. reflexivity. Qed.

Example gen_password_first_candidate :
  gen_password_christmas (fun k => k) None st0
  = (Ok "joyeux_renne", mk_rstate 2 0).
Proof. vm_compute. reflexivity. Qed.

Example gen_password_reaches_fallback :
  gen_password_christmas (fun _ => 0) (Some {["joyeux_sapin"]}) st0
  = (Ok "joyeux_sapin_10", mk_rstate 203 0).
Proof. vm_compute. reflexivity. Qed.

(** ** Subscripts and the pure monad *)

Lemma subscript_Ok {A} (l : list A) i a :
  subscript l i = Ok a <-> l !! i = Some a.
Proof.
  unfold subscript. destruct (l !! i); split; congruence.
Qed.

Lemma subscript_lt {A} (l : list A) i :
  i < length l -> exists a, subscript l i = Ok a /\ l !! i = Some a.
Proof.
  intros Hi. destruct (lookup_lt_is_Some_2 l i Hi) as [a Ha].
  exists a. split; [by apply subscript_Ok | done].
Qed.

Lemma bindR_Ok {A B} (r : result A) (k : A -> result B) b :
  bindR r k = Ok b -> exists a, r = Ok a /\ k a = Ok b.
Proof.
  destruct r as [a|e]; simpl; [eauto | discriminate].
Qed.

(** ** The shuffle yields a permutation and a known number of draws *)

Section RandomFacts.
Context (rnd : rng).

Lemma swap_Permutation {A} (x : list A) i j : swap x i j ≡ₚ x.
Proof.
  unfold swap.
  destruct (x !! i) as [a|] eqn:Hi; [|done].
  destruct (x !! j) as [b|] eqn:Hj; [|done].
  by apply Permutation_insert_swap.
Qed.

Lemma shuffle_loop_run {A} i (x : list A) st :
  exists x',
    shuffle_loop rnd i x st
    = (Ok x', mk_rstate (cursor st + i) (shuffle_calls st))
    /\ x' ≡ₚ x.
Proof.
  revert x st. induction i as [|i IH]; intros x st.
  - exists x. simpl. unfold ret. destruct st as [c s]; simpl.
    by rewrite Nat.add_0_r.
  - simpl. unfold bind, randbelow.
    destruct (IH (swap x (S i) (rnd (cursor st) mod S (S i)))
                 (mk_rstate (S (cursor st)) (shuffle_calls st)))
      as (x' & Hrun & Hperm).
    exists x'. split.
    + rewrite Hrun. simpl. do 2 f_equal. lia.
    + by rewrite Hperm, swap_Permutation.
Qed.

Lemma shuffle_run {A} (x : list A) st :
  exists x',
    shuffle rnd x st
    = (Ok x', mk_rstate (cursor st + (length x - 1)) (S (shuffle_calls st)))
    /\ x' ≡ₚ x.
Proof.
  unfold shuffle.
  destruct (shuffle_loop_run (length x - 1) x
              (mk_rstate (cursor st) (S (shuffle_calls st))))
    as (x' & Hrun & Hperm).
  exists x'. by split.
Qed.

End RandomFacts.

(** ** The compatibility test of one candidate *)

Lemma check_from_true compat i perm :
  check_from compat i perm = Ok true ->
  forall k j, perm !! k = Some j ->
    exists row, compat !! (i + k) = Some row /\ row !! j = Some 1%Z.
Proof.
  revert i. induction perm as [|j0 perm IH]; intros i Hc k j Hk.
  - by rewrite lookup_nil in Hk.
  - simpl in Hc.
    apply bindR_Ok in Hc as (row & Hrow & Hc).
    apply bindR_Ok in Hc as (c & Hcell & Hc).
    apply subscript_Ok in Hrow. apply subscript_Ok in Hcell.
    destruct (decide (c ≠ 1%Z)) as [Hne|Heq]; [discriminate|].
    apply dec_stable in Heq. subst c.
    destruct k as [|k]; simpl in Hk.
    + inversion Hk; subst j0. exists row. by rewrite Nat.add_0_r.
    + destruct (IH (S i) Hc k j Hk) as (row' & Hrow' & Hcell').
      exists row'. split; [|done].
      by replace (i + S k) with (S i + k) by lia.
Qed.

Lemma check_from_total compat i perm :
  (forall k j, perm !! k = Some j ->
     exists row, compat !! (i + k) = Some row /\ j < length row) ->
  exists b, check_from compat i perm = Ok b.
Proof.
  revert i. induction perm as [|j0 perm IH]; intros i Hrows.
  - by exists true.
  - simpl.
    destruct (Hrows 0 j0 eq_refl) as (row & Hrow & Hlt).
    rewrite Nat.add_0_r in Hrow.
    destruct (subscript_lt row j0 Hlt) as (c & Hc & _).
    apply subscript_Ok in Hrow. rewrite Hrow. simpl. rewrite Hc. simpl.
    destruct (decide (c ≠ 1%Z)); [by exists false|].
    apply IH. intros k j Hk.
    destruct (Hrows (S k) j Hk) as (row' & Hrow' & Hlt').
    exists row'. split; [|done].
    by replace (S i + k) with (i + S k) by lia.
Qed.

(** ** The mapping built from an accepted candidate *)

Lemma build_mapping_inv names perm indices d d' :
  build_mapping names perm indices d = Ok d' ->
  exists keys targets,
    Forall2 (fun i key => names !! i = Some key) indices keys
    /\ Forall2 (fun i target =>
                  exists p, perm !! i = Some p /\ names !! p = Some target)
               indices targets
    /\ d' = list_to_map (reverse (zip keys targets)) ∪ d.
Proof.
  revert d. induction indices as [|i indices IH]; intros d Hb; simpl in Hb.
  - inversion Hb; subst d'. exists [], []. repeat split; try constructor.
    simpl. by rewrite (left_id_L ∅ (∪)).
  - apply bindR_Ok in Hb as (key & Hkey & Hb).
    apply bindR_Ok in Hb as (p & Hp & Hb).
    apply bindR_Ok in Hb as (target & Htarget & Hb).
    apply subscript_Ok in Hkey, Hp, Htarget.
    destruct (IH _ Hb) as (keys & targets & Hkeys & Htargets & ->).
    exists (key :: keys), (target :: targets).
    split; [by constructor|]. split; [constructor; eauto|].
    simpl. rewrite reverse_cons, list_to_map_app. simpl.
    rewrite <- (assoc_L (∪)). f_equal.
    by rewrite insert_union_singleton_l, insert_empty.
Qed.

Lemma build_mapping_total names perm indices d :
  (forall i, i ∈ indices ->
     i < length names /\ exists p, perm !! i = Some p /\ p < length names) ->
  exists d', build_mapping names perm indices d = Ok d'.
Proof.
  revert d. induction indices as [|i indices IH]; intros d Hin; simpl.
  - by exists d.
  - destruct (Hin i) as (Hi & p & Hp & Hlt); [by left|].
    destruct (subscript_lt names i Hi) as (key & -> & _).
    destruct (subscript_lt names p Hlt) as (target & Htarget & _).
    apply subscript_Ok in Hp. simpl. rewrite Hp. simpl.
    rewrite Htarget. simpl.
    apply IH. intros i' Hi'. apply Hin. by right.
Qed.

(** Reading a list back through its own indices. *)
Lemma Forall2_lookup_seq {A} (l keys : list A) :
  Forall2 (fun i key => l !! i = Some key) (seq 0 (length l)) keys ->
  keys = l.
Proof.
  intros HF. apply list_eq. intros i.
  pose proof (Forall2_length _ _ _ HF) as Hlen.
  rewrite length_seq in Hlen.
  destruct (decide (i < length l)) as [Hi|Hi].
  - destruct (lookup_lt_is_Some_2 keys i) as [key Hkey]; [lia|].
    pose proof (Forall2_lookup_lr _ _ _ i i key HF) as H.
    rewrite H; [done| |done].
    by apply lookup_seq.
  - rewrite !lookup_ge_None_2; [done|lia|lia].
Qed.

Lemma Forall2_through_perm {A} (l : list A) (perm : list nat) targets :
  Forall2 (fun i target => exists p, perm !! i = Some p /\ l !! p = Some target)
          (seq 0 (length perm)) targets ->
  Forall2 (fun p target => l !! p = Some target) perm targets.
Proof.
  intros HF. pose proof (Forall2_length _ _ _ HF) as Hlen.
  rewrite length_seq in Hlen.
  apply Forall2_same_length_lookup. split; [done|].
  intros i p target Hp Htarget.
  assert (Hi : seq 0 (length perm) !! i = Some i).
  { apply lookup_seq. split; [done|]. by eapply lookup_lt_Some. }
  destruct (Forall2_lookup_lr _ _ _ i i target HF Hi Htarget)
    as (p' & Hp' & Hl).
  congruence.
Qed.

(** ** The search loop *)

Lemma search_run rnd names compat idx tries st :
  search_outcome names compat idx tries st
    (search rnd names compat idx tries st).
Proof.
  revert st. induction tries as [|tries IH]; intros st.
  - exists 0. simpl. repeat split; lia.
  - simpl. unfold bind at 1.
    destruct (shuffle_run rnd idx st) as (perm & Hrun & Hperm).
    rewrite Hrun. unfold bind at 1, lift at 1.
    destruct (check_from compat 0 perm) as [[|]|e] eqn:Hcheck.
    + unfold bind, lift, ret.
      destruct (build_mapping names perm (seq 0 (length names)) ∅)
        as [d|e] eqn:Hbuild.
      * exists 1. simpl. repeat split; try lia. by exists perm.
      * exists 1. simpl. repeat split; try lia. exists perm. auto.
    + destruct (IH (mk_rstate (cursor st + (length idx - 1))
                              (S (shuffle_calls st))))
        as (k & Hk & Hcalls & Hcursor & Hout).
      exists (S k). simpl in Hcalls, Hcursor.
      repeat split; [lia|lia|lia|].
      destruct (search rnd names compat idx tries _) as [[[d|]|e] st'];
        simpl in *; [done|lia|done].
    + exists 1. simpl. repeat split; try lia. exists perm. auto.
Qed.

Lemma Permutation_seq_lookup (perm : list nat) n i j :
  perm ≡ₚ seq 0 n -> perm !! i = Some j -> i < n /\ j < n.
Proof.
  intros Hperm Hij. split.
  - apply lookup_lt_Some in Hij.
    by rewrite (Permutation_length Hperm), length_seq in Hij.
  - assert (Hin : j ∈ seq 0 n).
    { rewrite <- Hperm. by eapply list_elem_of_lookup_2. }
    apply elem_of_seq in Hin. lia.
Qed.

(** A mapping returned by [find_assignment] is the mapping of a
    permutation of the indices that passed the compatibility test. *)
Lemma find_assignment_accepts rnd names compat max_tries st d st' :
  find_assignment rnd names compat max_tries st = (Ok (Some d), st') ->
  exists perm targets,
    perm ≡ₚ seq 0 (length names)
    /\ Forall2 (fun p target => names !! p = Some target) perm targets
    /\ d = list_to_map (reverse (zip names targets))
    /\ forall i j, perm !! i = Some j ->
         exists row, compat !! i = Some row /\ row !! j = Some 1%Z.
Proof.
  unfold find_assignment. intros Hrun.
  destruct (decide (length names = 0)) as [Hn|Hn].
  - inversion Hrun; subst. exists [], [].
    apply length_zero_iff_nil in Hn. subst names. simpl.
    repeat split; try constructor. intros i j Hij. by rewrite lookup_nil in Hij.
  - destruct (search_run rnd names compat (seq 0 (length names))
                (Z.to_nat max_tries) st) as (k & _ & _ & _ & Hout).
    rewrite Hrun in Hout. simpl in Hout.
    destruct Hout as (perm & Hperm & Hcheck & Hbuild).
    destruct (build_mapping_inv _ _ _ _ _ Hbuild)
      as (keys & targets & Hkeys & Htargets & ->).
    apply Forall2_lookup_seq in Hkeys. subst keys.
    exists perm, targets. split; [done|]. split.
    + apply Forall2_through_perm.
      by rewrite (Permutation_length Hperm), length_seq.
    + split; [by rewrite (right_id_L ∅ (∪))|].
      intros i j Hij. by apply (check_from_true compat 0 perm Hcheck i j).
Qed.

(** ** Mappings of distinct names *)

Lemma targets_Permutation {A} (l : list A) (perm : list nat) targets :
  perm ≡ₚ seq 0 (length l) ->
  Forall2 (fun p target => l !! p = Some target) perm targets ->
  targets ≡ₚ l.
Proof.
  intros Hperm HF.
  destruct (Permutation_Forall2 Hperm HF) as (targets' & Ht & HF').
  apply Forall2_lookup_seq in HF'. by subst targets'.
Qed.

Lemma lookup_mapping (names targets : list string) key target :
  NoDup names -> length targets = length names ->
  (list_to_map (reverse (zip names targets)) : gmap string string) !! key
    = Some target
  <-> exists i, names !! i = Some key /\ targets !! i = Some target.
Proof.
  intros Hnd Hlen.
  rewrite <- elem_of_list_to_map.
  - rewrite elem_of_reverse, list_elem_of_lookup.
    by setoid_rewrite lookup_zip_Some.
  - rewrite fmap_reverse, fst_zip by lia. by rewrite reverse_Permutation.
Qed.

Lemma mapping_bijective (names targets : list string) :
  NoDup names -> targets ≡ₚ names ->
  let d : gmap string string := list_to_map (reverse (zip names targets)) in
  dom d = list_to_set names
  /\ map_img d = (list_to_set names : gset string)
  /\ (forall k1 k2 v, d !! k1 = Some v -> d !! k2 = Some v -> k1 = k2).
Proof.
  intros Hnd Hperm d.
  pose proof (Permutation_length Hperm) as Hlen.
  assert (Hnd' : NoDup targets) by by rewrite Hperm.
  split; [|split].
  - unfold d. rewrite dom_list_to_map_L, fmap_reverse, fst_zip by lia.
    apply list_to_set_perm_L, reverse_Permutation.
  - apply set_eq. intros v.
    rewrite elem_of_map_img, elem_of_list_to_set, <- Hperm.
    unfold d. setoid_rewrite lookup_mapping; [|done..].
    rewrite list_elem_of_lookup. split.
    + intros (key & i & _ & Hv). eauto.
    + intros (i & Hv).
      destruct (lookup_lt_is_Some_2 names i) as [key Hkey].
      { apply lookup_lt_Some in Hv. lia. }
      eauto.
  - intros k1 k2 v H1 H2.
    apply lookup_mapping in H1 as (i1 & Hk1 & Hv1); [|done..].
    apply lookup_mapping in H2 as (i2 & Hk2 & Hv2); [|done..].
    assert (i1 = i2) by by eapply NoDup_lookup.
    congruence.
Qed.

(** ** Two names that must swap *)

Lemma shuffle_two rnd st :
  shuffle rnd [0; 1] st
  = (Ok (if decide (rnd (cursor st) mod 2 = 0) then [1; 0] else [0; 1]),
     next_shuffle2 st).
Proof.
  unfold shuffle, next_shuffle2. cbn [length Nat.sub shuffle_loop].
  unfold bind, randbelow, ret. cbn [cursor shuffle_calls].
  pose proof (Nat.mod_upper_bound (rnd (cursor st)) 2 ltac:(lia)) as Hlt.
  destruct (rnd (cursor st) mod 2) as [|[|r]]; [reflexivity|reflexivity|lia].
Qed.

Lemma search_two_step rnd tries st :
  search rnd names_ab compat_ab [0; 1] (S tries) st
  = if decide (rnd (cursor st) mod 2 = 0)
    then (Ok (Some mapping_ab), next_shuffle2 st)
    else search rnd names_ab compat_ab [0; 1] tries (next_shuffle2 st).
Proof.
  cbn [search]. unfold bind at 1. rewrite shuffle_two.
  destruct (decide (rnd (cursor st) mod 2 = 0)); reflexivity.
Qed.

(** The search on two names ends at the first shuffle that swaps them. *)
Lemma search_two rnd tries st :
  (exists k, k < tries
     /\ (forall t, t < k -> rnd (cursor st + t) mod 2 = 1)
     /\ rnd (cursor st + k) mod 2 = 0
     /\ search rnd names_ab compat_ab [0; 1] tries st
        = (Ok (Some mapping_ab),
           mk_rstate (cursor st + S k) (shuffle_calls st + S k)))
  \/ ((forall t, t < tries -> rnd (cursor st + t) mod 2 = 1)
      /\ search rnd names_ab compat_ab [0; 1] tries st
         = (Ok None, mk_rstate (cursor st + tries) (shuffle_calls st + tries))).
Proof.
  revert st. induction tries as [|tries IH]; intros st.
  - right. split; [lia|]. destruct st as [c s]. simpl. unfold ret.
    by rewrite !Nat.add_0_r.
  - rewrite search_two_step.
    destruct (decide (rnd (cursor st) mod 2 = 0)) as [Hz|Hnz].
    + left. exists 0. rewrite Nat.add_0_r.
      split; [lia|]. split; [lia|]. split; [done|].
      unfold next_shuffle2. do 2 f_equal; lia.
    + assert (Hone : rnd (cursor st) mod 2 = 1).
      { pose proof (Nat.mod_upper_bound (rnd (cursor st)) 2). lia. }
      destruct (IH (next_shuffle2 st))
        as [(k & Hk & Hbefore & Hat & Hrun)|(Hall & Hrun)];
        simpl in *.
      * left. exists (S k). split; [lia|]. split.
        { intros [|t] Ht; [by rewrite Nat.add_0_r|].
          replace (cursor st + S t) with (S (cursor st + t)) by lia.
          apply Hbefore. lia. }
        split.
        { by replace (cursor st + S k) with (S (cursor st + k)) by lia. }
        rewrite Hrun. do 2 f_equal; lia.
      * right. split.
        { intros [|t] Ht; [by rewrite Nat.add_0_r|].
          replace (cursor st + S t) with (S (cursor st + t)) by lia.
          apply Hall. lia. }
        rewrite Hrun. do 2 f_equal; lia.
Qed.

(** ** The password generator *)

Lemma choice_run {A} rnd (l : list A) st :
  l <> [] ->
  exists a, choice rnd l st = (Ok a, advance st 1)
            /\ l !! (rnd (cursor st) mod length l) = Some a.
Proof.
  intros Hne. destruct l as [|a0 l]; [done|].
  unfold choice, bind, randbelow, lift, advance.
  set (i := rnd (cursor st) mod length (a0 :: l)).
  destruct (subscript_lt (a0 :: l) i) as (a & Ha & Hl).
  { apply Nat.mod_upper_bound. simpl. lia. }
  exists a. rewrite Ha. split; [|done].
  do 2 f_equal. lia.
Qed.

Lemma draw_candidate_run rnd st :
  exists a b,
    adjectifs !! (rnd (cursor st) mod length adjectifs) = Some a
    /\ noms !! (rnd (S (cursor st)) mod length noms) = Some b
    /\ draw_candidate rnd st = (Ok (a +:+ "_" +:+ b), advance st 2).
Proof.
  destruct (choice_run rnd adjectifs st ltac:(done)) as (a & Ha & Hla).
  destruct (choice_run rnd noms (advance st 1) ltac:(done)) as (b & Hb & Hlb).
  exists a, b. split; [done|]. split.
  - revert Hlb. unfold advance. cbn [cursor]. by rewrite Nat.add_1_r.
  - unfold draw_candidate, bind at 1. rewrite Ha.
    unfold bind at 1. rewrite Hb. unfold ret, advance. cbn [cursor shuffle_calls].
    do 2 f_equal. lia.
Qed.

Lemma candidate_Ok rnd st t : exists s, candidate rnd st t = Ok s.
Proof.
  unfold candidate.
  destruct (draw_candidate_run rnd
              (mk_rstate (cursor st + 2 * t) (shuffle_calls st)))
    as (a & b & _ & _ & ->).
  by eexists.
Qed.

Lemma draw_fallback_run rnd st :
  exists a b k,
    adjectifs !! (rnd (cursor st) mod length adjectifs) = Some a
    /\ noms !! (rnd (S (cursor st)) mod length noms) = Some b
    /\ k = 10 + rnd (S (S (cursor st))) mod 90
    /\ draw_fallback rnd st
       = (Ok (a +:+ "_" +:+ b +:+ "_" +:+ str_of_nat k), advance st 3).
Proof.
  destruct (choice_run rnd adjectifs st ltac:(done)) as (a & Ha & Hla).
  destruct (choice_run rnd noms (advance st 1) ltac:(done)) as (b & Hb & Hlb).
  exists a, b, (10 + rnd (S (S (cursor st))) mod 90).
  split; [done|]. split.
  { revert Hlb. unfold advance. cbn [cursor]. by rewrite Nat.add_1_r. }
  split; [done|].
  unfold draw_fallback, bind at 1. rewrite Ha.
  unfold bind at 1. rewrite Hb.
  unfold bind, randint, randbelow, ret, advance. cbn [cursor shuffle_calls].
  replace (cursor st + 1 + 1) with (S (S (cursor st))) by lia.
  change (99 - 10 + 1) with 90.
  f_equal. f_equal. simpl. lia.
Qed.

Lemma password_loop_step rnd attempts (existing : gset string) st :
  password_loop rnd (S attempts) existing st
  = match draw_candidate rnd st with
    | (Ok c, st') =>
        if decide (c ∉ existing) then (Ok c, st')
        else password_loop rnd attempts existing st'
    | (Raise e, st') => (Raise e, st')
    end.
Proof.
  cbn [password_loop]. unfold bind.
  destruct (draw_candidate rnd st) as [[c|e] st']; [|reflexivity].
  destruct (decide (c ∉ existing)); reflexivity.
Qed.

(** The loop returns the first candidate that is not issued yet, or reaches
    the fallback after [attempts] candidates that all are. *)
Lemma password_loop_run rnd attempts (existing : gset string) st :
  (exists k s, k < attempts
     /\ candidate rnd st k = Ok s
     /\ (s ∉ existing)
     /\ (forall t s', t < k -> candidate rnd st t = Ok s' -> s' ∈ existing)
     /\ password_loop rnd attempts existing st
        = (Ok s, advance st (2 * S k)))
  \/ ((forall t s, t < attempts -> candidate rnd st t = Ok s -> s ∈ existing)
      /\ password_loop rnd attempts existing st
         = draw_fallback rnd (advance st (2 * attempts))).
Proof.
  revert st. induction attempts as [|attempts IH]; intros st.
  - right. split; [lia|]. simpl. f_equal. destruct st as [c s].
    unfold advance. simpl. by rewrite Nat.add_0_r.
  - destruct (draw_candidate_run rnd st) as (a & b & _ & _ & Hdraw).
    assert (Hfirst : candidate rnd st 0 = Ok (a +:+ "_" +:+ b)).
    { unfold candidate. rewrite Nat.mul_0_r, Nat.add_0_r.
      destruct st as [c s]. cbn [cursor shuffle_calls]. by rewrite Hdraw. }
    assert (Hshift : forall t,
              candidate rnd (advance st 2) t = candidate rnd st (S t)).
    { intros t. unfold candidate, advance. cbn [cursor shuffle_calls].
      do 3 f_equal. lia. }
    rewrite password_loop_step, Hdraw.
    destruct (decide (a +:+ "_" +:+ b ∉ existing)) as [Hfresh|Hold].
    + left. exists 0, (a +:+ "_" +:+ b).
      split; [lia|]. split; [done|]. split; [done|]. split; [lia|].
      reflexivity.
    + apply dec_stable in Hold.
      destruct (IH (advance st 2))
        as [(k & s & Hk & Hcand & Hfresh & Hbefore & Hrun)|(Hall & Hrun)].
      * left. exists (S k), s. split; [lia|].
        split; [by rewrite <- Hshift|]. split; [done|]. split.
        { intros [|t] s' Ht Hs'; [congruence|].
          apply (Hbefore t); [lia|]. by rewrite Hshift. }
        rewrite Hrun. unfold advance. cbn [cursor shuffle_calls].
        do 2 f_equal. lia.
      * right. split.
        { intros [|t] s' Ht Hs'; [congruence|].
          apply (Hall t); [lia|]. by rewrite Hshift. }
        rewrite Hrun. unfold advance. cbn [cursor shuffle_calls].
        do 2 f_equal. lia.
Qed.

(** [gen_password_christmas] returns, within its budget of draws. *)
Lemma gen_password_run rnd existing_set st :
  exists s st',
    gen_password_christmas rnd existing_set st = (Ok s, st')
    /\ ((exists k, 1 <= k <= 100 /\ st' = advance st (2 * k))
        \/ st' = advance st (2 * 100 + 3)).
Proof.
  unfold gen_password_christmas.
  change (match existing_set with None => ∅ | Some s => s end)
    with (issued existing_set).
  destruct (password_loop_run rnd 100 (issued existing_set) st)
    as [(k & s & Hk & _ & _ & _ & Hrun)|(_ & Hrun)].
  - exists s, (advance st (2 * S k)). split; [done|].
    left. exists (S k). split; [lia|done].
  - destruct (draw_fallback_run rnd (advance st (2 * 100)))
      as (a & b & k & _ & _ & _ & Hdraw).
    eexists _, _. split; [by rewrite Hrun, Hdraw|].
    right. unfold advance. cbn [cursor shuffle_calls]. f_equal. lia.
Qed.

Lemma two_digits k : 10 <= k <= 99 -> String.length (str_of_nat k) = 2.
Proof.
  intros Hk.
  assert (Hall : Forall (fun k => String.length (str_of_nat k) = 2) (seq 10 90)).
  { by_evaluation. }
  rewrite Forall_forall in Hall. apply Hall, elem_of_seq. lia.
Qed.

(** ** Square matrices *)

Lemma check_from_square n compat perm :
  square n compat -> perm ≡ₚ seq 0 n ->
  exists b, check_from compat 0 perm = Ok b.
Proof.
  intros [Hlen Hrows] Hperm. apply check_from_total.
  intros k j Hkj.
  destruct (Permutation_seq_lookup perm n k j Hperm Hkj) as [Hk Hj].
  destruct (lookup_lt_is_Some_2 compat k) as [row Hrow]; [lia|].
  exists row. split; [done|].
  rewrite Forall_lookup in Hrows. rewrite (Hrows k row Hrow). done.
Qed.

Lemma build_mapping_perm names perm :
  perm ≡ₚ seq 0 (length names) ->
  exists d, build_mapping names perm (seq 0 (length names)) ∅ = Ok d.
Proof.
  intros Hperm. apply build_mapping_total.
  intros i Hi. apply elem_of_seq in Hi. split; [lia|].
  destruct (lookup_lt_is_Some_2 perm i) as [p Hp].
  { rewrite (Permutation_length Hperm), length_seq. lia. }
  exists p. split; [done|].
  by destruct (Permutation_seq_lookup perm _ i p Hperm Hp).
Qed.

(** On a square matrix no subscript of [find_assignment] is out of range. *)
Lemma find_assignment_no_raise rnd names compat max_tries st :
  square (length names) compat ->
  exists r st', find_assignment rnd names compat max_tries st = (Ok r, st').
Proof.
  intros Hsq. unfold find_assignment.
  destruct (decide (length names = 0)); [by eexists _, _|].
  destruct (search_run rnd names compat (seq 0 (length names))
              (Z.to_nat max_tries) st) as (k & _ & _ & _ & Hout).
  destruct (search rnd names compat _ _ st) as [[r|e] st'];
    [by eexists _, _|].
  exfalso. simpl in Hout. destruct Hout as (perm & Hperm & Hbad).
  destruct (check_from_square _ _ _ Hsq Hperm) as [b Hb].
  destruct (build_mapping_perm names perm Hperm) as [d Hd].
  destruct Hbad as [Hbad|[_ Hbad]]; congruence.
Qed.

(** ** Rows that sum to zero *)

Lemma sum_from (a : Z) (row : list Z) :
  foldl Z.add a row = (a + sum row)%Z.
Proof.
  unfold sum. revert a. induction row as [|c row IH]; intros a; simpl.
  - lia.
  - rewrite (IH (a + c)%Z), (IH (0 + c)%Z). lia.
Qed.

Lemma sum_cons c row : sum (c :: row) = (c + sum row)%Z.
Proof.
  unfold sum at 1. simpl. by rewrite sum_from.
Qed.

Lemma sum_zero_one row :
  Forall (fun c => c = 0%Z \/ c = 1%Z) row ->
  (0 <= sum row)%Z /\ (sum row = 0%Z -> Forall (fun c => c = 0%Z) row).
Proof.
  induction 1 as [|c row Hc _ [IHpos IHzero]].
  - split; [done|]. by constructor.
  - rewrite sum_cons. split; [lia|].
    intros Hsum. constructor; [lia|]. apply IHzero. lia.
Qed.

(** A candidate never passes the test of a square 0/1 matrix that has a
    row summing to zero. *)
Lemma check_from_zero_row n compat perm i row :
  square n compat -> zero_one compat ->
  compat !! i = Some row -> sum row = 0%Z ->
  perm ≡ₚ seq 0 n ->
  check_from compat 0 perm = Ok false.
Proof.
  intros Hsq H01 Hrow Hsum Hperm.
  destruct (check_from_square _ _ _ Hsq Hperm) as [[|] Hb]; [|done].
  exfalso.
  assert (Hi : i < length perm).
  { destruct Hsq as [Hlen _].
    rewrite (Permutation_length Hperm), length_seq, <- Hlen.
    by eapply lookup_lt_Some. }
  destruct (lookup_lt_is_Some_2 perm i Hi) as [j Hj].
  destruct (check_from_true compat 0 perm Hb i j Hj) as (row' & Hrow' & Hone).
  simpl in Hrow'. rewrite Hrow in Hrow'. inversion Hrow'; subst row'.
  unfold zero_one in H01. rewrite Forall_lookup in H01.
  destruct (sum_zero_one row (H01 i row Hrow)) as [_ Hzero].
  specialize (Hzero Hsum). rewrite Forall_lookup in Hzero.
  specialize (Hzero j _ Hone). discriminate.
Qed.

Lemma find_assignment_zero_row rnd names compat max_tries st i row :
  square (length names) compat -> zero_one compat ->
  compat !! i = Some row -> sum row = 0%Z ->
  find_assignment rnd names compat max_tries st
  = (Ok None,
     mk_rstate (cursor st + Z.to_nat max_tries * (length names - 1))
               (shuffle_calls st + Z.to_nat max_tries)).
Proof.
  intros Hsq H01 Hrow Hsum. unfold find_assignment.
  destruct (decide (length names = 0)) as [Hn|Hn].
  { destruct Hsq as [Hlen _]. apply lookup_lt_Some in Hrow. lia. }
  destruct (search_run rnd names compat (seq 0 (length names))
              (Z.to_nat max_tries) st) as (k & _ & Hcalls & Hcursor & Hout).
  rewrite length_seq in Hcursor.
  destruct (search rnd names compat _ _ st) as [[[d|]|e] [c s]];
    simpl in Hout, Hcalls, Hcursor.
  - destruct Hout as (perm & Hperm & Hcheck & _).
    rewrite (check_from_zero_row _ _ _ _ _ Hsq H01 Hrow Hsum Hperm) in Hcheck.
    discriminate.
  - by subst.
  - destruct Hout as (perm & Hperm & [Hcheck|[Hcheck _]]);
      rewrite (check_from_zero_row _ _ _ _ _ Hsq H01 Hrow Hsum Hperm) in Hcheck;
      discriminate.
Qed.

(** ** The row check of admin_matrix *)

(** The loop stops at the first row that sums to zero. *)
Lemma first_empty_row_finds names compat k : forall a i row,
  a + k <= length names -> a + k <= length compat ->
  a <= i < a + k ->
  compat !! i = Some row -> sum row = 0%Z ->
  exists i0 row0 name,
    a <= i0 <= i
    /\ compat !! i0 = Some row0 /\ sum row0 = 0%Z
    /\ names !! i0 = Some name
    /\ (forall i' row', a <= i' < i0 -> compat !! i' = Some row' ->
          sum row' <> 0%Z)
    /\ first_empty_row names compat (seq a k) = Ok (Some name).
Proof.
  induction k as [|k IH]; intros a i row Hnames Hcompat Hi Hrow Hsum; [lia|].
  cbn [seq first_empty_row].
  destruct (subscript_lt compat a ltac:(lia)) as (row_a & Hsub & Hrow_a).
  rewrite Hsub. cbn [bindR].
  destruct (decide (sum row_a = 0%Z)) as [Hzero|Hnz].
  - destruct (subscript_lt names a ltac:(lia)) as (name & Hname & Hlookup).
    rewrite Hname. cbn [bindR].
    exists a, row_a, name.
    split; [lia|]. do 3 (split; [done|]). split; [|done].
    intros i' row' Hi'. lia.
  - assert (Hne : i <> a) by (intros ->; congruence).
    destruct (IH (S a) i row) as
      (i0 & row0 & name & Hi0 & Hrow0 & Hsum0 & Hname & Hbefore & Hrun);
      try done; try lia.
    exists i0, row0, name.
    split; [lia|]. do 3 (split; [done|]). split; [|done].
    intros i' row' Hi' Hrow'.
    destruct (decide (i' = a)) as [->|Hne']; [congruence|].
    apply (Hbefore i' row'); [lia|done].
Qed.

(** Filling a row, entry by entry. *)
Lemma fill_row_lookup {A} (f : nat -> A) k : forall a (row : list A) j,
  foldl (fun r j => <[j:=f j]> r) row (seq a k) !! j
  = if decide (a <= j < a + k /\ j < length row) then Some (f j)
    else row !! j.
Proof.
  induction k as [|k IH]; intros a row j; cbn [seq foldl].
  - case_decide; [lia|done].
  - rewrite IH, length_insert, list_lookup_insert.
    repeat case_decide; try done; try lia.
    destruct_and?. by subst.
Qed.

Lemma fill_row {A} (f : nat -> A) (row : list A) :
  foldl (fun r j => <[j:=f j]> r) row (seq 0 (length row))
  = f <$> seq 0 (length row).
Proof.
  apply list_eq. intros j.
  rewrite fill_row_lookup, list_lookup_fmap.
  case_decide as Hj.
  - by rewrite (proj2 (lookup_seq 0 (length row) j j)) by (split; lia).
  - rewrite !lookup_ge_None_2; [done|rewrite length_seq; lia|lia].
Qed.

Lemma fill_row_n {A} (f : nat -> A) (row : list A) n :
  length row = n ->
  foldl (fun r j => <[j:=f j]> r) row (seq 0 n) = f <$> seq 0 n.
Proof.
  intros <-. apply fill_row.
Qed.

Lemma fill_entries (f : nat -> Z) i js : forall compat row,
  compat !! i = Some row ->
  foldl (fun compat j => set_entry compat i j (f j)) compat js
  = <[i:=foldl (fun r j => <[j:=f j]> r) row js]> compat.
Proof.
  induction js as [|j js IH]; intros compat row Hrow; cbn [foldl].
  - by rewrite list_insert_id.
  - unfold set_entry at 2. rewrite Hrow.
    rewrite (IH _ (<[j:=f j]> row)).
    + by rewrite list_insert_insert_eq.
    + apply list_lookup_insert_eq. by eapply lookup_lt_Some.
Qed.

Lemma fill_rows n (g : nat -> nat -> Z) k : forall a compat,
  a + k <= length compat ->
  Forall (fun row => length row = n) compat ->
  foldl (fun compat i =>
           foldl (fun compat j => set_entry compat i j (g i j)) compat (seq 0 n))
        compat (seq a k)
  = foldl (fun compat i => <[i:=g i <$> seq 0 n]> compat) compat (seq a k).
Proof.
  induction k as [|k IH]; intros a compat Hlen Hrows; cbn [seq foldl]; [done|].
  destruct (lookup_lt_is_Some_2 compat a ltac:(lia)) as [row Hrow].
  rewrite (fill_entries (g a) a (seq 0 n) compat row Hrow).
  assert (Hn : length row = n).
  { rewrite Forall_lookup in Hrows. by apply (Hrows a). }
  rewrite (fill_row_n (g a) row n Hn).
  apply IH.
  - rewrite length_insert. lia.
  - apply Forall_insert; [done|]. by rewrite length_fmap, length_seq.
Qed.

(** The matrix read from the form, entry by entry. *)
Lemma form_matrix_rows n form :
  form_matrix n form
  = (fun i => (fun j => if form i j then 1%Z else 0%Z) <$> seq 0 n)
      <$> seq 0 n.
Proof.
  unfold form_matrix.
  rewrite (fill_rows n (fun i j => if form i j then 1%Z else 0%Z)).
  - apply (fill_row_n
             (fun i => (fun j => if form i j then 1%Z else 0%Z) <$> seq 0 n)).
    apply length_replicate.
  - rewrite length_replicate. lia.
  - apply Forall_replicate. apply length_replicate.
Qed.

Lemma form_matrix_square n form : square n (form_matrix n form).
Proof.
  rewrite form_matrix_rows. split.
  - by rewrite length_fmap, length_seq.
  - apply Forall_fmap, Forall_seq. intros i _. simpl.
    by rewrite length_fmap, length_seq.
Qed.

Lemma form_matrix_zero_one n form : zero_one (form_matrix n form).
Proof.
  rewrite form_matrix_rows. unfold zero_one.
  apply Forall_fmap, Forall_seq. intros i _. simpl.
  apply Forall_fmap, Forall_seq. intros j _. simpl.
  destruct (form i j); auto.
Qed.

Lemma form_matrix_row n form i :
  i < n ->
  form_matrix n form !! i
  = Some ((fun j => if form i j then 1%Z else 0%Z) <$> seq 0 n).
Proof.
  intros Hi. rewrite form_matrix_rows, list_lookup_fmap.
  by rewrite (proj2 (lookup_seq 0 n i i)) by (split; lia).
Qed.

(** A row of the form sums to zero exactly when none of its boxes is
    ticked. *)
Lemma form_row_sum n (form : nat -> nat -> bool) i :
  sum ((fun j => if form i j then 1%Z else 0%Z) <$> seq 0 n) = 0%Z
  <-> forall j, j < n -> form i j = false.
Proof.
  set (row := (fun j => if form i j then 1%Z else 0%Z) <$> seq 0 n).
  assert (H01 : Forall (fun c => c = 0%Z \/ c = 1%Z) row).
  { apply Forall_fmap, Forall_seq. intros j _. simpl.
    destruct (form i j); auto. }
  split.
  - intros Hsum j Hj.
    destruct (sum_zero_one row H01) as [_ Hzero].
    specialize (Hzero Hsum). rewrite Forall_lookup in Hzero.
    specialize (Hzero j 1%Z).
    destruct (form i j) eqn:Hbox; [|done].
    exfalso. enough (1%Z = 0%Z) by done. apply Hzero.
    unfold row. rewrite list_lookup_fmap.
    rewrite (proj2 (lookup_seq 0 n j j)) by (split; lia).
    simpl. by rewrite Hbox.
  - intros Hall. unfold row.
    assert (Hrow : (fun j => if form i j then 1%Z else 0%Z) <$> seq 0 n
                   = replicate n 0%Z).
    { apply list_eq. intros j. rewrite list_lookup_fmap.
      destruct (decide (j < n)) as [Hj|Hj].
      - rewrite (proj2 (lookup_seq 0 n j j)) by (split; lia).
        simpl. rewrite (Hall j Hj). symmetry. by apply lookup_replicate_2.
      - rewrite !lookup_ge_None_2; [done|rewrite length_replicate; lia|].
        rewrite length_seq. lia. }
    rewrite Hrow. clear. induction n as [|n IH]; [done|].
    simpl. by rewrite sum_cons, IH.
Qed.

Lemma admin_matrix_post_empty_row names (form : nat -> nat -> bool) i :
  i < length names ->
  (forall j, j < length names -> form i j = false) ->
  exists i0 name,
    i0 <= i
    /\ names !! i0 = Some name
    /\ (forall j, j < length names -> form i0 j = false)
    /\ (forall i', i' < i0 ->
          ~ (forall j, j < length names -> form i' j = false))
    /\ admin_matrix_post names form
       = Ok (EmptyRow name (form_matrix (length names) form)).
Proof.
  intros Hi Hrow.
  destruct (form_matrix_square (length names) form) as [Hlen _].
  assert (Hnames : 0 + length names <= length names) by lia.
  assert (Hcompat : 0 + length names
                    <= length (form_matrix (length names) form)) by lia.
  assert (Hrange : 0 <= i < 0 + length names) by lia.
  destruct (first_empty_row_finds names (form_matrix (length names) form)
              (length names) 0 i _ Hnames Hcompat Hrange
              (form_matrix_row _ form i Hi)
              (proj2 (form_row_sum _ form i) Hrow))
    as (i0 & row0 & name & Hi0 & Hrow0 & Hsum0 & Hname & Hbefore & Hrun).
  clear Hnames Hcompat Hrange.
  exists i0, name. split; [lia|]. split; [done|].
  rewrite form_matrix_row in Hrow0 by lia.
  inversion Hrow0; subst row0. split; [by apply form_row_sum|]. split.
  - intros i' Hi' Hall.
    assert (Hlt : i' < length names) by lia.
    apply (Hbefore i' _ (conj (Nat.le_0_l i') Hi')
             (form_matrix_row _ form i' Hlt)).
    by apply form_row_sum.
  - unfold admin_matrix_post. destruct names as [|name0 names']; [simpl in Hi; lia|].
    cbv zeta. by rewrite Hrun.
Qed.

(** * The claims *)

(** C1. Soundness of the search: a mapping returned by [find_assignment]
    was built from a permutation [perm] of the indices [0 .. n-1] as
    [names[i] -> names[perm[i]]] (the keys inserted in the order of the
    indices), and every entry [compat_matrix[i][perm[i]]] equals 1.  When
    the names are distinct, the mapping read back at [names[i]] is
    [names[perm[i]]], a recipient the matrix allows to participant [i]. *)
Theorem find_assignment_sound
    (rnd : rng) (names : list string) (compat_matrix : list (list Z))
    (max_tries : Z) (st st' : rstate) (d : gmap string string) :
  find_assignment rnd names compat_matrix max_tries st = (Ok (Some d), st') ->
  exists perm targets,
    perm ≡ₚ seq 0 (length names)
    /\ Forall2 (fun p target => names !! p = Some target) perm targets
    /\ d = list_to_map (reverse (zip names targets))
    /\ (forall i j, perm !! i = Some j ->
          exists row, compat_matrix !! i = Some row /\ row !! j = Some 1%Z)
    /\ (NoDup names ->
        forall i key, names !! i = Some key ->
          exists j target row,
            perm !! i = Some j
            /\ names !! j = Some target
            /\ d !! key = Some target
            /\ compat_matrix !! i = Some row /\ row !! j = Some 1%Z).
Proof.
  intros Hrun.
  destruct (find_assignment_accepts _ _ _ _ _ _ _ Hrun)
    as (perm & targets & Hperm & Htargets & Hd & Hcompat).
  exists perm, targets. do 4 (split; [done|]).
  intros Hnd i key Hkey.
  pose proof (Permutation_length Hperm) as Hlen. rewrite length_seq in Hlen.
  pose proof (Forall2_length _ _ _ Htargets) as Hlen'.
  destruct (lookup_lt_is_Some_2 perm i) as [j Hj].
  { rewrite Hlen. by eapply lookup_lt_Some. }
  destruct (Forall2_lookup_l _ _ _ _ _ Htargets Hj) as (target & Ht & Hname).
  destruct (Hcompat i j Hj) as (row & Hrow & Hone).
  exists j, target, row. do 2 (split; [done|]). split; [|done].
  subst d. apply lookup_mapping; [done|lia|]. by exists i.
Qed.

Lemma find_assignment_sound_witness :
  find_assignment (fun _ => 0) ["A"; "B"] [[0; 1]; [1; 0]]%Z 5 st0
  = (Ok (Some {["A" := "B"; "B" := "A"]}), mk_rstate 1 1)
  /\ exists perm targets,
    perm ≡ₚ seq 0 2
    /\ Forall2 (fun p target => ["A"; "B"] !! p = Some target) perm targets
    /\ ({["A" := "B"; "B" := "A"]} : gmap string string)
       = list_to_map (reverse (zip ["A"; "B"] targets))
    /\ (forall i j, perm !! i = Some j ->
          exists row, [[0; 1]; [1; 0]]%Z !! i = Some row
                      /\ row !! j = Some 1%Z)
    /\ (NoDup ["A"; "B"] ->
        forall i key, ["A"; "B"] !! i = Some key ->
          exists j target row,
            perm !! i = Some j
            /\ ["A"; "B"] !! j = Some target
            /\ ({["A" := "B"; "B" := "A"]} : gmap string string) !! key
               = Some target
            /\ [[0; 1]; [1; 0]]%Z !! i = Some row /\ row !! j = Some 1%Z).
Proof.
  assert (Hrun : find_assignment (fun _ => 0) ["A"; "B"] [[0; 1]; [1; 0]]%Z 5 st0
                 = (Ok (Some {["A" := "B"; "B" := "A"]}), mk_rstate 1 1))
    by (vm_compute; reflexivity).
  split; [exact Hrun|].
  exact (find_assignment_sound _ _ _ _ _ _ _ Hrun).
Defined.

(** C2. Bijectivity: when the names are distinct, a mapping returned by
    [find_assignment] has exactly the names as its keys, exactly the names
    as its values, and sends distinct names to distinct names. *)
Theorem find_assignment_bijective
    (rnd : rng) (names : list string) (compat_matrix : list (list Z))
    (max_tries : Z) (st st' : rstate) (d : gmap string string) :
  NoDup names ->
  find_assignment rnd names compat_matrix max_tries st = (Ok (Some d), st') ->
  dom d = list_to_set names
  /\ map_img d = (list_to_set names : gset string)
  /\ (forall k1 k2 v, d !! k1 = Some v -> d !! k2 = Some v -> k1 = k2).
Proof.
  intros Hnd Hrun.
  destruct (find_assignment_accepts _ _ _ _ _ _ _ Hrun)
    as (perm & targets & Hperm & Htargets & -> & _).
  apply mapping_bijective; [done|].
  by eapply targets_Permutation.
Qed.

Lemma find_assignment_bijective_witness :
  let d : gmap string string := {["A" := "B"; "B" := "C"; "C" := "A"]} in
  NoDup ["A"; "B"; "C"]
  /\ find_assignment (fun _ => 0) ["A"; "B"; "C"]
       [[0; 1; 1]; [1; 0; 1]; [1; 1; 0]]%Z 5 st0
     = (Ok (Some d), mk_rstate 2 1)
  /\ dom d = list_to_set ["A"; "B"; "C"]
  /\ map_img d = (list_to_set ["A"; "B"; "C"] : gset string)
  /\ (forall k1 k2 v, d !! k1 = Some v -> d !! k2 = Some v -> k1 = k2).
Proof.
  intros d.
  assert (Hnd : NoDup ["A"; "B"; "C"])
    by by_evaluation.
  assert (Hrun : find_assignment (fun _ => 0) ["A"; "B"; "C"]
                   [[0; 1; 1]; [1; 0; 1]; [1; 1; 0]]%Z 5 st0
                 = (Ok (Some d), mk_rstate 2 1))
    by (vm_compute; reflexivity).
  split; [exact Hnd|]. split; [exact Hrun|].
  exact (find_assignment_bijective _ _ _ _ _ _ _ Hnd Hrun).
Defined.

(** C3 (as the code has it). The check of the rows that sum to zero is
    made by the admin_matrix route when the matrix is submitted: it names
    the first participant whose row sums to zero, stores nothing and draws
    nothing from the random source.  [find_assignment] makes no such check:
    on an n x n matrix of zeros and ones that has a row summing to zero it
    makes [max_tries] shuffles and returns [None]. *)
Theorem zero_row_check :
  (forall (names : list string) (compat : list (list Z)) (i : nat)
          (row : list Z) (st : rstate),
     length compat = length names ->
     compat !! i = Some row -> sum row = 0%Z ->
     exists i0 row0 name,
       i0 <= i
       /\ compat !! i0 = Some row0 /\ sum row0 = 0%Z
       /\ names !! i0 = Some name
       /\ (forall i' row', i' < i0 -> compat !! i' = Some row' ->
             sum row' <> 0%Z)
       /\ lift (first_empty_row names compat (seq 0 (length names))) st
          = (Ok (Some name), st))
  /\ (forall (names : list string) (form : nat -> nat -> bool) (i : nat)
             (st : rstate),
        i < length names ->
        (forall j, j < length names -> form i j = false) ->
        exists i0 name,
          i0 <= i
          /\ names !! i0 = Some name
          /\ (forall j, j < length names -> form i0 j = false)
          /\ (forall i', i' < i0 ->
                ~ (forall j, j < length names -> form i' j = false))
          /\ lift (admin_matrix_post names form) st
             = (Ok (EmptyRow name (form_matrix (length names) form)), st))
  /\ (forall (rnd : rng) (names : list string) (compat : list (list Z))
             (max_tries : Z) (st : rstate) (i : nat) (row : list Z),
        square (length names) compat -> zero_one compat ->
        compat !! i = Some row -> sum row = 0%Z ->
        find_assignment rnd names compat max_tries st
        = (Ok None,
           mk_rstate (cursor st + Z.to_nat max_tries * (length names - 1))
                     (shuffle_calls st + Z.to_nat max_tries))).
Proof.
  split; [|split].
  - intros names compat i row st Hlen Hrow Hsum.
    pose proof (lookup_lt_Some _ _ _ Hrow) as Hi.
    assert (Hnames : 0 + length names <= length names) by lia.
    assert (Hcompat : 0 + length names <= length compat) by lia.
    assert (Hrange : 0 <= i < 0 + length names) by lia.
    destruct (first_empty_row_finds names compat (length names) 0 i row
                Hnames Hcompat Hrange Hrow Hsum)
      as (i0 & row0 & name & Hi0 & Hrow0 & Hsum0 & Hname & Hbefore & Hrun).
    exists i0, row0, name. split; [lia|]. do 3 (split; [done|]). split.
    + intros i' row' Hi'. apply Hbefore. lia.
    + unfold lift. by rewrite Hrun.
  - intros names form i st Hi Hrow.
    destruct (admin_matrix_post_empty_row names form i Hi Hrow)
      as (i0 & name & Hi0 & Hname & Hrow0 & Hbefore & Hrun).
    exists i0, name. do 4 (split; [done|]).
    unfold lift. by rewrite Hrun.
  - intros rnd names compat max_tries st i row.
    apply find_assignment_zero_row.
Qed.

Lemma zero_row_check_witness :
  (exists i0 row0 name,
     i0 <= 0
     /\ compat_zero_row !! i0 = Some row0 /\ sum row0 = 0%Z
     /\ ["A"; "B"] !! i0 = Some name
     /\ (forall i' row', i' < i0 -> compat_zero_row !! i' = Some row' ->
           sum row' <> 0%Z)
     /\ lift (first_empty_row ["A"; "B"] compat_zero_row (seq 0 2)) st0
        = (Ok (Some name), st0))
  /\ (exists i0 name,
        i0 <= 0
        /\ ["A"; "B"] !! i0 = Some name
        /\ (forall j, j < 2 -> (fun i j => Nat.eqb i 1 && Nat.eqb j 0) i0 j = false)
        /\ (forall i', i' < i0 ->
              ~ (forall j, j < 2 ->
                   (fun i j => Nat.eqb i 1 && Nat.eqb j 0) i' j = false))
        /\ lift (admin_matrix_post ["A"; "B"]
                   (fun i j => Nat.eqb i 1 && Nat.eqb j 0)) st0
           = (Ok (EmptyRow name
                    (form_matrix 2 (fun i j => Nat.eqb i 1 && Nat.eqb j 0))),
              st0))
  /\ find_assignment (fun _ => 0) ["A"; "B"] compat_zero_row 3 st0
     = (Ok None, mk_rstate 3 3).
Proof.
  destruct zero_row_check as (Hcheck & Hpost & Hfind).
  split; [|split].
  - apply (Hcheck ["A"; "B"] compat_zero_row 0 [0; 0]%Z st0); reflexivity.
  - apply (Hpost ["A"; "B"] (fun i j => Nat.eqb i 1 && Nat.eqb j 0) 0 st0).
    + simpl. lia.
    + intros j _. reflexivity.
  - apply (Hfind (fun _ => 0) ["A"; "B"] compat_zero_row 3%Z st0 0 [0; 0]%Z).
    + split; [reflexivity|]. repeat constructor.
    + unfold zero_one. by_evaluation.
    + reflexivity.
    + reflexivity.
Defined.

(** C3 as stated fails: given a matrix whose first row sums to zero,
    [find_assignment] reports no row; it spends its whole default budget of
    shuffles and returns [None]. *)
Lemma find_assignment_has_no_row_check :
  let out := find_assignment (fun _ => 0) ["A"; "B"] [[0; 0]; [1; 0]]%Z
               default_max_tries st0 in
  out.1 = Ok None
  /\ shuffle_calls out.2 = Z.to_nat default_max_tries
  /\ cursor out.2 = Z.to_nat default_max_tries
  /\ out.2 <> st0.
Proof.
  intros out. unfold out.
  rewrite (find_assignment_zero_row (fun _ => 0) ["A"; "B"]
             [[0; 0]; [1; 0]]%Z default_max_tries st0 0 [0; 0]%Z).
  - cbn [fst snd shuffle_calls cursor st0 length Nat.sub].
    split; [done|]. split; [lia|]. split; [lia|].
    intros Hsame. apply (f_equal shuffle_calls) in Hsame.
    unfold default_max_tries in Hsame. cbn [shuffle_calls st0] in Hsame. lia.
  - split; [reflexivity|]. repeat constructor.
  - unfold zero_one. by_evaluation.
  - reflexivity.
  - reflexivity.
Qed.

(** C4 (as the code has it). On every list of n names and every n x n
    matrix [find_assignment] returns a mapping or [None] and raises
    nothing, and [gen_password_christmas] returns a string for every
    [existing_set]. *)
Theorem core_returns_on_square :
  (forall (rnd : rng) (names : list string) (compat : list (list Z))
          (max_tries : Z) (st : rstate),
     square (length names) compat ->
     exists r st', find_assignment rnd names compat max_tries st = (Ok r, st'))
  /\ (forall (rnd : rng) (existing_set : option (gset string)) (st : rstate),
        exists s st', gen_password_christmas rnd existing_set st = (Ok s, st')).
Proof.
  split.
  - intros rnd names compat max_tries st. apply find_assignment_no_raise.
  - intros rnd existing_set st.
    destruct (gen_password_run rnd existing_set st) as (s & st' & Hrun & _).
    by exists s, st'.
Qed.

Lemma core_returns_on_square_witness :
  square 2 [[0; 1]; [1; 0]]%Z
  /\ exists r st',
       find_assignment (fun _ => 0) ["A"; "B"] [[0; 1]; [1; 0]]%Z 5 st0
       = (Ok r, st').
Proof.
  assert (Hsq : square (length ["A"; "B"]) [[0; 1]; [1; 0]]%Z).
  { split; [reflexivity|]. repeat constructor. }
  split; [exact Hsq|].
  exact (proj1 core_returns_on_square (fun _ => 0) ["A"; "B"]
           [[0; 1]; [1; 0]]%Z 5%Z st0 Hsq).
Defined.

(** C4 as stated fails: with rows shorter than the number of names the
    first candidate already subscripts a row out of range. *)
Lemma find_assignment_raises_on_short_rows :
  find_assignment (fun _ => 0) ["A"; "B"] [[1]; [1]]%Z default_max_tries st0
  = (Raise IndexError, mk_rstate 1 1).
Proof.
  vm_compute. reflexivity.
Qed.

(** C5. Empty input: with no names, [find_assignment] returns the empty
    mapping at once, whatever the matrix, [max_tries] and the random source,
    and leaves the random source untouched. *)
Theorem find_assignment_empty
    (rnd : rng) (compat_matrix : list (list Z)) (max_tries : Z) (st : rstate) :
  find_assignment rnd [] compat_matrix max_tries st = (Ok (Some ∅), st).
Proof.
  reflexivity.
Qed.

(** C6 (as the code has it). For the names [A, B] and the matrix
    [[0,1],[1,0]], [find_assignment] returns the mapping [A -> B, B -> A] as
    soon as one of its [max_tries] shuffles swaps the two indices, and it
    returns [None] when every one of them leaves the indices in place; no
    other result is possible. *)
Theorem find_assignment_two_names (rnd : rng) (max_tries : Z) (st : rstate) :
  let tries := Z.to_nat max_tries in
  (exists k, k < tries
     /\ (forall t, t < k -> rnd (cursor st + t) mod 2 = 1)
     /\ rnd (cursor st + k) mod 2 = 0
     /\ find_assignment rnd names_ab compat_ab max_tries st
        = (Ok (Some mapping_ab),
           mk_rstate (cursor st + S k) (shuffle_calls st + S k)))
  \/ ((forall t, t < tries -> rnd (cursor st + t) mod 2 = 1)
      /\ find_assignment rnd names_ab compat_ab max_tries st
         = (Ok None, mk_rstate (cursor st + tries) (shuffle_calls st + tries))).
Proof.
  intros tries. apply (search_two rnd tries st).
Qed.

(** C6 as stated fails: a random source whose draws never swap the two
    indices exhausts the default budget, and the result is [None]. *)
Lemma find_assignment_two_names_not_deterministic :
  (find_assignment (fun _ => 1) ["A"; "B"] [[0; 1]; [1; 0]]%Z
     default_max_tries st0).1 = Ok None.
Proof.
  destruct (search_two (fun _ => 1) (Z.to_nat default_max_tries) st0)
    as [(k & _ & _ & Hat & _)|(_ & Hrun)].
  - simpl in Hat. discriminate.
  - unfold find_assignment. cbn [length names_ab decide].
    change (search (fun _ => 1) ["A"; "B"] [[0; 1]; [1; 0]]%Z (seq 0 2))
      with (search (fun _ => 1) names_ab compat_ab [0; 1]).
    destruct (decide (2 = 0)) as [?|_]; [lia|].
    by rewrite Hrun.
Qed.

(** C7. Derangements of three names: with the matrix that is 1 off the
    diagonal and 0 on it, every mapping [find_assignment] returns for
    [A, B, C] is one of the two derangements. *)
Theorem find_assignment_derangement
    (rnd : rng) (max_tries : Z) (st st' : rstate) (d : gmap string string) :
  find_assignment rnd ["A"; "B"; "C"] [[0; 1; 1]; [1; 0; 1]; [1; 1; 0]]%Z
    max_tries st = (Ok (Some d), st') ->
  d = {["A" := "B"; "B" := "C"; "C" := "A"]}
  \/ d = {["A" := "C"; "B" := "A"; "C" := "B"]}.
Proof.
  intros Hrun.
  destruct (find_assignment_accepts _ _ _ _ _ _ _ Hrun)
    as (perm & targets & Hperm & Htargets & -> & Hcompat).
  assert (Hnd : NoDup perm) by (rewrite Hperm; apply NoDup_seq).
  pose proof (Permutation_length Hperm) as Hlen. simpl in Hlen.
  destruct perm as [|a [|b [|c [|? ?]]]]; try discriminate.
  destruct (Hcompat 0 a eq_refl) as (ra & Hra & Ha).
  destruct (Hcompat 1 b eq_refl) as (rb & Hrb & Hb).
  destruct (Hcompat 2 c eq_refl) as (rc & Hrc & Hc).
  simpl in Hra, Hrb, Hrc.
  inversion Hra; inversion Hrb; inversion Hrc; subst ra rb rc.
  clear Hra Hrb Hrc Hcompat Hperm Hlen.
  destruct a as [|[|[|a]]]; try discriminate Ha;
  destruct b as [|[|[|b]]]; try discriminate Hb;
  destruct c as [|[|[|c]]]; try discriminate Hc;
  try (exfalso; apply (bool_decide_pack _) in Hnd; vm_compute in Hnd;
       exact Hnd).
  - left.
    apply Forall2_cons_inv_l in Htargets as (ta & ts & Hta & Htargets & ->).
    apply Forall2_cons_inv_l in Htargets as (tb & ts' & Htb & Htargets & ->).
    apply Forall2_cons_inv_l in Htargets as (tc & ts'' & Htc & Htargets & ->).
    apply Forall2_nil_inv_l in Htargets as ->.
    simpl in Hta, Htb, Htc. inversion Hta; inversion Htb; inversion Htc.
    vm_compute. reflexivity.
  - right.
    apply Forall2_cons_inv_l in Htargets as (ta & ts & Hta & Htargets & ->).
    apply Forall2_cons_inv_l in Htargets as (tb & ts' & Htb & Htargets & ->).
    apply Forall2_cons_inv_l in Htargets as (tc & ts'' & Htc & Htargets & ->).
    apply Forall2_nil_inv_l in Htargets as ->.
    simpl in Hta, Htb, Htc. inversion Hta; inversion Htb; inversion Htc.
    vm_compute. reflexivity.
Qed.

Lemma find_assignment_derangement_witness :
  let d : gmap string string := {["A" := "C"; "B" := "A"; "C" := "B"]} in
  find_assignment (fun k => 1 - k) ["A"; "B"; "C"]
    [[0; 1; 1]; [1; 0; 1]; [1; 1; 0]]%Z 5 st0 = (Ok (Some d), mk_rstate 2 1)
  /\ (d = {["A" := "B"; "B" := "C"; "C" := "A"]}
      \/ d = {["A" := "C"; "B" := "A"; "C" := "B"]}).
Proof.
  intros d.
  assert (Hrun : find_assignment (fun k => 1 - k) ["A"; "B"; "C"]
                   [[0; 1; 1]; [1; 0; 1]; [1; 1; 0]]%Z 5 st0
                 = (Ok (Some d), mk_rstate 2 1))
    by (vm_compute; reflexivity).
  split; [exact Hrun|].
  exact (find_assignment_derangement _ _ _ _ _ Hrun).
Defined.

(** C8. Freshness on the loop path: when one of the 100 candidates of the
    loop is not in [existing_set], [gen_password_christmas] returns the
    first candidate that is not in it, having drawn nothing beyond that
    candidate. *)
Theorem gen_password_fresh
    (rnd : rng) (existing_set : option (gset string)) (st : rstate)
    (t : nat) (s0 : string) :
  t < 100 ->
  candidate rnd st t = Ok s0 ->
  s0 ∉ issued existing_set ->
  exists k s,
    k <= t
    /\ candidate rnd st k = Ok s
    /\ (forall t' s', t' < k -> candidate rnd st t' = Ok s' ->
          s' ∈ issued existing_set)
    /\ (s ∉ issued existing_set)
    /\ gen_password_christmas rnd existing_set st
       = (Ok s, advance st (2 * S k)).
Proof.
  intros Ht Hcand Hfresh.
  destruct (password_loop_run rnd 100 (issued existing_set) st)
    as [(k & s & Hk & Hs & Hnew & Hbefore & Hrun)|(Hall & _)].
  - exists k, s. split.
    + destruct (decide (k <= t)) as [|Hgt]; [done|].
      exfalso. apply Hfresh, (Hbefore t); [lia|done].
    + split; [done|]. split; [done|]. split; [done|].
      unfold gen_password_christmas. by destruct existing_set.
  - exfalso. apply Hfresh. by apply (Hall t).
Qed.

Lemma gen_password_fresh_witness :
  let rnd : rng := fun k => k in
  let existing_set : option (gset string) := Some {["joyeux_renne"]} in
  1 < 100
  /\ candidate rnd st0 1 = Ok "rouge_traineau"
  /\ ("rouge_traineau" ∉ issued existing_set)
  /\ exists k s,
       k <= 1
       /\ candidate rnd st0 k = Ok s
       /\ (forall t' s', t' < k -> candidate rnd st0 t' = Ok s' ->
             s' ∈ issued existing_set)
       /\ (s ∉ issued existing_set)
       /\ gen_password_christmas rnd existing_set st0
          = (Ok s, advance st0 (2 * S k)).
Proof.
  intros rnd existing_set.
  assert (H1 : 1 < 100) by lia.
  assert (H2 : candidate rnd st0 1 = Ok "rouge_traineau") by reflexivity.
  assert (H3 : "rouge_traineau" ∉ issued existing_set).
  { by_evaluation. }
  split; [exact H1|]. split; [exact H2|]. split; [exact H3|].
  exact (gen_password_fresh rnd existing_set st0 1 "rouge_traineau" H1 H2 H3).
Defined.

(** C9. The fallback: when all 100 candidates of the loop are in
    [existing_set], [gen_password_christmas] draws a new adjective, a new
    noun and a number from 10 to 99 and returns
    [adjective_noun_number] without looking it up in [existing_set]; for
    some set and random source the returned password is in the set. *)
Theorem gen_password_fallback :
  (forall (rnd : rng) (existing_set : option (gset string)) (st : rstate),
     (forall t s, t < 100 -> candidate rnd st t = Ok s ->
        s ∈ issued existing_set) ->
     exists a b k,
       adjectifs !! (rnd (cursor st + 200) mod length adjectifs) = Some a
       /\ noms !! (rnd (cursor st + 201) mod length noms) = Some b
       /\ k = 10 + rnd (cursor st + 202) mod 90
       /\ 10 <= k <= 99
       /\ String.length (str_of_nat k) = 2
       /\ gen_password_christmas rnd existing_set st
          = (Ok (a +:+ "_" +:+ b +:+ "_" +:+ str_of_nat k), advance st 203))
  /\ (exists (rnd : rng) (existing_set : option (gset string))
             (st st' : rstate) (s : string),
        gen_password_christmas rnd existing_set st = (Ok s, st')
        /\ s ∈ issued existing_set).
Proof.
  split.
  - intros rnd existing_set st Hall.
    destruct (password_loop_run rnd 100 (issued existing_set) st)
      as [(k & s & Hk & Hs & Hnew & _)|(_ & Hrun)].
    { exfalso. apply Hnew. by apply (Hall k). }
    destruct (draw_fallback_run rnd (advance st (2 * 100)))
      as (a & b & k & Ha & Hb & Hk & Hdraw).
    unfold advance in Ha, Hb, Hk. cbn [cursor] in Ha, Hb, Hk.
    exists a, b, k.
    replace (cursor st + 201) with (S (cursor st + 2 * 100)) by lia.
    replace (cursor st + 202) with (S (S (cursor st + 2 * 100))) by lia.
    assert (Hrange : 10 <= k <= 99).
    { pose proof (Nat.mod_upper_bound
                    (rnd (S (S (cursor st + 2 * 100)))) 90). lia. }
    repeat split; try done; try lia.
    + by apply two_digits.
    + unfold gen_password_christmas.
      change (match existing_set with None => ∅ | Some s => s end)
        with (issued existing_set).
      rewrite Hrun, Hdraw. unfold advance. cbn [cursor shuffle_calls].
      do 2 f_equal. lia.
  - exists (fun _ => 0), (Some {["joyeux_sapin"; "joyeux_sapin_10"]}),
      st0, (mk_rstate 203 0), "joyeux_sapin_10".
    split.
    + vm_compute. reflexivity.
    + by_evaluation.
Qed.

Lemma gen_password_fallback_witness :
  let rnd : rng := fun _ => 0 in
  let existing_set : option (gset string) := Some {["joyeux_sapin"]} in
  (forall t s, t < 100 -> candidate rnd st0 t = Ok s ->
     s ∈ issued existing_set)
  /\ exists a b k,
       adjectifs !! (rnd (cursor st0 + 200) mod length adjectifs) = Some a
       /\ noms !! (rnd (cursor st0 + 201) mod length noms) = Some b
       /\ k = 10 + rnd (cursor st0 + 202) mod 90
       /\ 10 <= k <= 99
       /\ String.length (str_of_nat k) = 2
       /\ gen_password_christmas rnd existing_set st0
          = (Ok (a +:+ "_" +:+ b +:+ "_" +:+ str_of_nat k), advance st0 203).
Proof.
  intros rnd existing_set.
  assert (Hall : forall t s, t < 100 -> candidate rnd st0 t = Ok s ->
                   s ∈ issued existing_set).
  { intros t s _ Hs. vm_compute in Hs. inversion Hs; subst s.
    by_evaluation. }
  split; [exact Hall|].
  exact (proj1 gen_password_fallback rnd existing_set st0 Hall).
Defined.

(** C10. Totality: for every [existing_set], [None] included (read as the
    empty set) and also a set holding every pair of words,
    [gen_password_christmas] returns a string, after at most 100 candidates
    of two draws each and, only after all 100, one fallback of three
    draws. *)
Theorem gen_password_total
    (rnd : rng) (existing_set : option (gset string)) (st : rstate) :
  gen_password_christmas rnd None st = gen_password_christmas rnd (Some ∅) st
  /\ exists s st',
       gen_password_christmas rnd existing_set st = (Ok s, st')
       /\ ((exists k, 1 <= k <= 100 /\ st' = advance st (2 * k))
           \/ st' = advance st (2 * 100 + 3)).
Proof.
  split; [reflexivity|]. apply gen_password_run.
Qed.

(** * Further properties of the code *)

(** ** More on find_assignment *)

Lemma check_from_false compat i perm :
  check_from compat i perm = Ok false ->
  exists k j row c,
    perm !! k = Some j /\ compat !! (i + k) = Some row
    /\ row !! j = Some c /\ c <> 1%Z.
Proof.
  revert i. induction perm as [|j0 perm IH]; intros i Hc; simpl in Hc.
  - discriminate.
  - apply bindR_Ok in Hc as (row & Hrow & Hc).
    apply bindR_Ok in Hc as (c & Hcell & Hc).
    apply subscript_Ok in Hrow. apply subscript_Ok in Hcell.
    destruct (decide (c ≠ 1%Z)) as [Hne|_].
    + exists 0, j0, row, c. by rewrite Nat.add_0_r.
    + destruct (IH (S i) Hc) as (k & j & row' & c' & Hk & Hrow' & Hcell' & Hne).
      exists (S k), j, row', c'. split; [done|]. split; [|done].
      by replace (i + S k) with (S i + k) by lia.
Qed.

Lemma search_first_try rnd names compat idx tries st :
  (forall perm, perm ≡ₚ idx -> check_from compat 0 perm = Ok true) ->
  (forall perm, perm ≡ₚ idx ->
     exists d, build_mapping names perm (seq 0 (length names)) ∅ = Ok d) ->
  exists d,
    search rnd names compat idx (S tries) st
    = (Ok (Some d),
       mk_rstate (cursor st + (length idx - 1)) (S (shuffle_calls st))).
Proof.
  intros Hcheck Hbuild. cbn [search]. unfold bind at 1.
  destruct (shuffle_run rnd idx st) as (perm & -> & Hperm).
  unfold bind at 1, lift at 1. rewrite (Hcheck perm Hperm).
  destruct (Hbuild perm Hperm) as [d Hd].
  exists d. unfold bind, lift, ret. by rewrite Hd.
Qed.

(** X1. Nobody draws themselves when the diagonal forbids it: with distinct
    names and a matrix whose diagonal entries are not 1, a mapping returned
    by [find_assignment] sends no name to itself. *)
Theorem find_assignment_no_self
    (rnd : rng) (names : list string) (compat_matrix : list (list Z))
    (max_tries : Z) (st st' : rstate) (d : gmap string string) :
  NoDup names ->
  (forall i row, compat_matrix !! i = Some row -> row !! i <> Some 1%Z) ->
  find_assignment rnd names compat_matrix max_tries st = (Ok (Some d), st') ->
  forall key, d !! key <> Some key.
Proof.
  intros Hnd Hdiag Hrun key Hkey.
  destruct (find_assignment_accepts _ _ _ _ _ _ _ Hrun)
    as (perm & targets & Hperm & Htargets & -> & Hcompat).
  pose proof (Permutation_length Hperm) as Hlen. rewrite length_seq in Hlen.
  pose proof (Forall2_length _ _ _ Htargets) as Hlen'.
  apply lookup_mapping in Hkey as (i & Hi & Ht); [|done|lia].
  destruct (Forall2_lookup_r _ _ _ _ _ Htargets Ht) as (j & Hj & Hname).
  assert (j = i) by by eapply NoDup_lookup. subst j.
  destruct (Hcompat i i Hj) as (row & Hrow & Hone).
  by apply (Hdiag i row Hrow).
Qed.

Lemma find_assignment_no_self_witness :
  let d : gmap string string := {["A" := "B"; "B" := "C"; "C" := "A"]} in
  NoDup ["A"; "B"; "C"]
  /\ (forall i row, [[0; 1; 1]; [1; 0; 1]; [1; 1; 0]]%Z !! i = Some row ->
        row !! i <> Some 1%Z)
  /\ find_assignment (fun _ => 0) ["A"; "B"; "C"]
       [[0; 1; 1]; [1; 0; 1]; [1; 1; 0]]%Z 5 st0
     = (Ok (Some d), mk_rstate 2 1)
  /\ forall key, d !! key <> Some key.
Proof.
  intros d.
  assert (Hnd : NoDup ["A"; "B"; "C"]) by by_evaluation.
  assert (Hdiag : forall i row,
            [[0; 1; 1]; [1; 0; 1]; [1; 1; 0]]%Z !! i = Some row ->
            row !! i <> Some 1%Z).
  { intros [|[|[|i]]] row Hrow; simpl in Hrow; inversion Hrow; done. }
  assert (Hrun : find_assignment (fun _ => 0) ["A"; "B"; "C"]
                   [[0; 1; 1]; [1; 0; 1]; [1; 1; 0]]%Z 5 st0
                 = (Ok (Some d), mk_rstate 2 1))
    by (vm_compute; reflexivity).
  split; [exact Hnd|]. split; [exact Hdiag|]. split; [exact Hrun|].
  exact (find_assignment_no_self _ _ _ _ _ _ _ Hnd Hdiag Hrun).
Defined.

(** X2. The budget of the search: [find_assignment] calls [random.shuffle]
    at most [max_tries] times, every call consumes [n - 1] elementary
    draws, and [None] is returned only after all [max_tries] calls (none at
    all when [max_tries] is zero or negative). *)
Theorem find_assignment_budget
    (rnd : rng) (names : list string) (compat_matrix : list (list Z))
    (max_tries : Z) (st : rstate) :
  let out := find_assignment rnd names compat_matrix max_tries st in
  exists k,
    k <= Z.to_nat max_tries
    /\ shuffle_calls out.2 = shuffle_calls st + k
    /\ cursor out.2 = cursor st + k * (length names - 1)
    /\ (out.1 = Ok None -> k = Z.to_nat max_tries).
Proof.
  intros out. unfold out, find_assignment.
  destruct (decide (length names = 0)) as [Hn|Hn].
  - exists 0. simpl. repeat split; try lia. discriminate.
  - destruct (search_run rnd names compat_matrix (seq 0 (length names))
                (Z.to_nat max_tries) st) as (k & Hk & Hcalls & Hcursor & Hout).
    rewrite length_seq in Hcursor.
    exists k. do 3 (split; [done|]).
    intros Hnone. by rewrite Hnone in Hout.
Qed.

(** X3. Without constraints the first candidate is taken: on an n x n
    matrix of ones, with at least one name and a positive [max_tries],
    [find_assignment] returns a mapping after a single shuffle. *)
Theorem find_assignment_unconstrained
    (rnd : rng) (names : list string) (compat_matrix : list (list Z))
    (max_tries : Z) (st : rstate) :
  names <> [] ->
  length compat_matrix = length names ->
  Forall (fun row => length row = length names) compat_matrix ->
  Forall (Forall (fun c => c = 1%Z)) compat_matrix ->
  (0 < max_tries)%Z ->
  exists d,
    find_assignment rnd names compat_matrix max_tries st
    = (Ok (Some d),
       mk_rstate (cursor st + (length names - 1)) (S (shuffle_calls st))).
Proof.
  intros Hne Hlen Hrows Hones Hpos. unfold find_assignment.
  destruct (decide (length names = 0)) as [Hn|Hn].
  { apply length_zero_iff_nil in Hn. done. }
  destruct (Z.to_nat max_tries) as [|tries] eqn:Htries; [lia|].
  destruct (search_first_try rnd names compat_matrix (seq 0 (length names))
              tries st) as [d Hd].
  - intros perm Hperm.
    destruct (check_from_square (length names) compat_matrix perm
                (conj Hlen Hrows) Hperm) as [[|] Hb]; [done|].
    exfalso.
    destruct (check_from_false _ _ _ Hb) as (k & j & row & c & _ & Hrow & Hc & Hne1).
    rewrite Forall_lookup in Hones. specialize (Hones _ _ Hrow).
    rewrite Forall_lookup in Hones. by specialize (Hones _ _ Hc).
  - intros perm Hperm. by apply build_mapping_perm.
  - exists d. by rewrite length_seq in Hd.
Qed.

Lemma find_assignment_unconstrained_witness :
  ["A"; "B"] <> []
  /\ length [[1; 1]; [1; 1]]%Z = length ["A"; "B"]
  /\ Forall (fun row => length row = length ["A"; "B"]) [[1; 1]; [1; 1]]%Z
  /\ Forall (Forall (fun c => c = 1%Z)) [[1; 1]; [1; 1]]%Z
  /\ (0 < 1)%Z
  /\ exists d,
       find_assignment (fun _ => 1) ["A"; "B"] [[1; 1]; [1; 1]]%Z 1 st0
       = (Ok (Some d),
          mk_rstate (cursor st0 + (length ["A"; "B"] - 1))
                    (S (shuffle_calls st0))).
Proof.
  assert (H1 : ["A"; "B"] <> []) by done.
  assert (H2 : length [[1; 1]; [1; 1]]%Z = length ["A"; "B"]) by reflexivity.
  assert (H3 : Forall (fun row => length row = length ["A"; "B"])
                 [[1; 1]; [1; 1]]%Z) by (repeat constructor).
  assert (H4 : Forall (Forall (fun c => c = 1%Z)) [[1; 1]; [1; 1]]%Z)
    by (repeat constructor).
  assert (H5 : (0 < 1)%Z) by lia.
  do 5 (split; [assumption|]).
  exact (find_assignment_unconstrained (fun _ => 1) ["A"; "B"]
           [[1; 1]; [1; 1]]%Z 1%Z st0 H1 H2 H3 H4 H5).
Defined.

Lemma search_single_step rnd a compat row c tries st :
  compat !! 0 = Some row -> row !! 0 = Some c ->
  search rnd [a] compat [0] (S tries) st
  = if decide (c = 1%Z)
    then (Ok (Some {[a := a]}), mk_rstate (cursor st) (S (shuffle_calls st)))
    else search rnd [a] compat [0] tries
           (mk_rstate (cursor st) (S (shuffle_calls st))).
Proof.
  intros Hrow Hc. cbn [search]. unfold bind at 1.
  change (shuffle rnd [0] st)
    with (Ok [0], mk_rstate (cursor st) (S (shuffle_calls st))).
  unfold bind at 1, lift at 1. cbn [check_from].
  apply subscript_Ok in Hrow, Hc. rewrite Hrow. cbn [bindR]. rewrite Hc.
  cbn [bindR].
  destruct (decide (c ≠ 1%Z)) as [Hne|Heq].
  - by rewrite decide_False.
  - apply dec_stable in Heq. rewrite decide_True by done. subst c.
    reflexivity.
Qed.

(** X4. A single participant: with one name, [find_assignment] draws
    nothing from the random source; it returns the mapping of the name to
    itself when the entry [compat_matrix[0][0]] is 1, and [None] after
    [max_tries] shuffles of the one index otherwise. *)
Theorem find_assignment_single
    (rnd : rng) (a : string) (compat_matrix : list (list Z)) (row : list Z)
    (c : Z) (max_tries : Z) (st : rstate) :
  compat_matrix !! 0 = Some row -> row !! 0 = Some c ->
  (0 < max_tries)%Z ->
  find_assignment rnd [a] compat_matrix max_tries st
  = if decide (c = 1%Z)
    then (Ok (Some {[a := a]}), mk_rstate (cursor st) (S (shuffle_calls st)))
    else (Ok None,
          mk_rstate (cursor st) (shuffle_calls st + Z.to_nat max_tries)).
Proof.
  intros Hrow Hc Hpos. unfold find_assignment. cbn [length seq].
  rewrite decide_False by done.
  destruct (decide (c = 1%Z)) as [Hone|Hne].
  - destruct (Z.to_nat max_tries) as [|tries] eqn:Htries; [lia|].
    rewrite (search_single_step rnd a compat_matrix row c tries st Hrow Hc).
    by rewrite decide_True.
  - generalize (Z.to_nat max_tries). intros tries. revert st.
    induction tries as [|tries IH]; intros st.
    + destruct st as [cur calls]. simpl. unfold ret. by rewrite Nat.add_0_r.
    + rewrite (search_single_step rnd a compat_matrix row c tries st Hrow Hc).
      rewrite decide_False by done. rewrite IH. cbn [cursor shuffle_calls].
      do 2 f_equal. lia.
Qed.

Lemma find_assignment_single_witness :
  [[0]]%Z !! 0 = Some [0%Z] /\ [0%Z] !! 0 = Some 0%Z /\ (0 < 3)%Z
  /\ find_assignment (fun k => k) ["A"] [[0]]%Z 3 st0
     = if decide (0%Z = 1%Z)
       then (Ok (Some {["A" := "A"]}),
             mk_rstate (cursor st0) (S (shuffle_calls st0)))
       else (Ok None,
             mk_rstate (cursor st0) (shuffle_calls st0 + Z.to_nat 3)).
Proof.
  assert (H1 : [[0]]%Z !! 0 = Some [0%Z]) by reflexivity.
  assert (H2 : [0%Z] !! 0 = Some 0%Z) by reflexivity.
  assert (H3 : (0 < 3)%Z) by lia.
  do 3 (split; [assumption|]).
  exact (find_assignment_single (fun k => k) "A" [[0]]%Z [0%Z] 0%Z 3%Z st0
           H1 H2 H3).
Defined.

(** ** More on gen_password_christmas *)

Lemma candidate_words rnd st t s :
  candidate rnd st t = Ok s ->
  exists a b, a ∈ adjectifs /\ b ∈ noms /\ s = a +:+ "_" +:+ b.
Proof.
  unfold candidate.
  destruct (draw_candidate_run rnd
              (mk_rstate (cursor st + 2 * t) (shuffle_calls st)))
    as (a & b & Ha & Hb & ->).
  intros Hs. inversion Hs. exists a, b.
  split; [by eapply list_elem_of_lookup_2|].
  split; [by eapply list_elem_of_lookup_2|done].
Qed.

(** The two ways [gen_password_christmas] returns. *)
Lemma gen_password_cases rnd existing_set st :
  exists s st',
    gen_password_christmas rnd existing_set st = (Ok s, st')
    /\ shuffle_calls st' = shuffle_calls st
    /\ ((exists a b, a ∈ adjectifs /\ b ∈ noms /\ s = a +:+ "_" +:+ b
                     /\ s ∉ issued existing_set)
        \/ (exists a b k, a ∈ adjectifs /\ b ∈ noms /\ 10 <= k <= 99
                          /\ s = a +:+ "_" +:+ b +:+ "_" +:+ str_of_nat k)).
Proof.
  unfold gen_password_christmas.
  change (match existing_set with None => ∅ | Some s => s end)
    with (issued existing_set).
  destruct (password_loop_run rnd 100 (issued existing_set) st)
    as [(k & s & Hk & Hcand & Hfresh & _ & Hrun)|(_ & Hrun)].
  - exists s, (advance st (2 * S k)). split; [done|]. split; [done|].
    left. destruct (candidate_words _ _ _ _ Hcand) as (a & b & Ha & Hb & Hs).
    by exists a, b.
  - destruct (draw_fallback_run rnd (advance st (2 * 100)))
      as (a & b & k & Ha & Hb & Hk & Hdraw).
    eexists _, _. split; [by rewrite Hrun, Hdraw|]. split; [done|].
    right. exists a, b, k.
    split; [by eapply list_elem_of_lookup_2|].
    split; [by eapply list_elem_of_lookup_2|].
    split; [|done].
    pose proof (Nat.mod_upper_bound
                  (rnd (S (S (cursor (advance st (2 * 100)))))) 90). lia.
Qed.

(** X5. The shape of every password: [gen_password_christmas] returns
    either [adjective_noun], with both words from the two lists and the
    password not in [existing_set], or [adjective_noun_NN] with NN between
    10 and 99; it never calls [random.shuffle]. *)
Theorem gen_password_shape
    (rnd : rng) (existing_set : option (gset string)) (st : rstate) :
  exists s st',
    gen_password_christmas rnd existing_set st = (Ok s, st')
    /\ shuffle_calls st' = shuffle_calls st
    /\ ((exists a b, a ∈ adjectifs /\ b ∈ noms /\ s = a +:+ "_" +:+ b
                     /\ s ∉ issued existing_set)
        \/ (exists a b k, a ∈ adjectifs /\ b ∈ noms /\ 10 <= k <= 99
                          /\ s = a +:+ "_" +:+ b +:+ "_" +:+ str_of_nat k)).
Proof.
  apply gen_password_cases.
Qed.

(** ** More on admin_matrix *)

Lemma first_empty_row_none names compat k : forall a,
  a + k <= length compat ->
  (forall i row, a <= i < a + k -> compat !! i = Some row -> sum row <> 0%Z) ->
  first_empty_row names compat (seq a k) = Ok None.
Proof.
  induction k as [|k IH]; intros a Hlen Hrows; cbn [seq first_empty_row]; [done|].
  destruct (subscript_lt compat a ltac:(lia)) as (row & Hsub & Hrow).
  rewrite Hsub. cbn [bindR].
  rewrite decide_False by (apply (Hrows a); [lia|done]).
  apply IH; [lia|]. intros i row' Hi. apply Hrows. lia.
Qed.

Lemma some_box_ticked (f : nat -> bool) n :
  ~ (forall j, j < n -> f j = false) -> exists j, j < n /\ f j = true.
Proof.
  induction n as [|n IH]; intros Hnot.
  - exfalso. apply Hnot. intros j Hj. lia.
  - destruct (f n) eqn:Hn; [exists n; split; [lia|done]|].
    destruct IH as (j & Hj & Hfj).
    + intros Hall. apply Hnot. intros j Hj.
      destruct (decide (j = n)) as [->|Hne]; [done|]. apply Hall. lia.
    + exists j. split; [lia|done].
Qed.

(** X6. What admin_matrix stores: for a non-empty list of n names the
    submitted matrix is accepted exactly when every participant has at
    least one ticked box, and the matrix then stored is the n x n matrix
    with a 1 for every ticked box and a 0 elsewhere. *)
Theorem admin_matrix_post_accepts
    (names : list string) (form : nat -> nat -> bool) :
  names <> [] ->
  ((exists compat, admin_matrix_post names form = Ok (Stored compat))
   <-> (forall i, i < length names ->
          exists j, j < length names /\ form i j = true))
  /\ (forall compat,
        admin_matrix_post names form = Ok (Stored compat) ->
        length compat = length names
        /\ forall i j, i < length names -> j < length names ->
             exists row, compat !! i = Some row
                         /\ length row = length names
                         /\ row !! j = Some (if form i j then 1%Z else 0%Z)).
Proof.
  intros Hne.
  assert (Hshape : forall compat,
            admin_matrix_post names form = Ok (Stored compat) ->
            compat = form_matrix (length names) form).
  { unfold admin_matrix_post. destruct names as [|name0 names']; [done|].
    cbv zeta. intros compat.
    destruct (first_empty_row _ _ _) as [[name|]|e]; cbn [bindR];
      intros Hout; by inversion Hout. }
  split; [split|].
  - intros [compat Hout] i Hi.
    apply some_box_ticked. intros Hall.
    destruct (admin_matrix_post_empty_row names form i Hi Hall)
      as (i0 & name & _ & _ & _ & _ & Hrej).
    rewrite Hrej in Hout. discriminate.
  - intros Hticks. exists (form_matrix (length names) form).
    unfold admin_matrix_post. destruct names as [|name0 names'] eqn:Hnames; [done|].
    rewrite <- Hnames in *. cbv zeta.
    rewrite first_empty_row_none; [done| |].
    + destruct (form_matrix_square (length names) form) as [-> _]. lia.
    + intros i row Hi Hrow Hsum.
      rewrite form_matrix_row in Hrow by lia. inversion Hrow; subst row.
      pose proof (proj1 (form_row_sum (length names) form i) Hsum) as Hall.
      assert (Hlt : i < length names) by lia.
      destruct (Hticks i Hlt) as (j & Hj & Hbox).
      rewrite (Hall j Hj) in Hbox. discriminate.
  - intros compat Hout. rewrite (Hshape compat Hout).
    destruct (form_matrix_square (length names) form) as [Hlen _].
    split; [done|]. intros i j Hi Hj.
    eexists. split; [by apply form_matrix_row|].
    split; [by rewrite length_fmap, length_seq|].
    rewrite list_lookup_fmap.
    by rewrite (proj2 (lookup_seq 0 (length names) j j)) by (split; lia).
Qed.

Lemma admin_matrix_post_accepts_witness :
  ["A"; "B"] <> []
  /\ ((exists compat,
         admin_matrix_post ["A"; "B"] (fun i j => negb (Nat.eqb i j))
         = Ok (Stored compat))
      <-> (forall i, i < length ["A"; "B"] ->
             exists j, j < length ["A"; "B"]
                       /\ (fun i j => negb (Nat.eqb i j)) i j = true))
  /\ (forall compat,
        admin_matrix_post ["A"; "B"] (fun i j => negb (Nat.eqb i j))
        = Ok (Stored compat) ->
        length compat = length ["A"; "B"]
        /\ forall i j, i < length ["A"; "B"] -> j < length ["A"; "B"] ->
             exists row, compat !! i = Some row
                         /\ length row = length ["A"; "B"]
                         /\ row !! j
                            = Some (if (fun i j => negb (Nat.eqb i j)) i j
                                    then 1%Z else 0%Z)).
Proof.
  assert (Hne : ["A"; "B"] <> []) by done.
  split; [exact Hne|].
  exact (admin_matrix_post_accepts ["A"; "B"] (fun i j => negb (Nat.eqb i j)) Hne).
Defined.

(** The rows of the default matrix. *)
Lemma clear_diagonal_lookup k : forall a (compat : list (list Z)) i,
  foldl (fun compat i => set_entry compat i i 0%Z) compat (seq a k) !! i
  = if decide (a <= i < a + k) then (fun row => <[i:=0%Z]> row) <$> compat !! i
    else compat !! i.
Proof.
  induction k as [|k IH]; intros a compat i; cbn [seq foldl].
  - rewrite decide_False by lia. done.
  - rewrite IH. unfold set_entry.
    destruct (compat !! a) as [row|] eqn:Hrow.
    + rewrite list_lookup_insert.
      pose proof (lookup_lt_Some _ _ _ Hrow).
      repeat case_decide; try done; try lia; destruct_and?; subst; try lia.
      by rewrite Hrow.
    + repeat case_decide; try done; try lia.
      assert (i = a) by lia. subst i. by rewrite Hrow.
Qed.

Lemma default_matrix_row n i :
  i < n -> default_matrix n !! i = Some (<[i:=0%Z]> (replicate n 1%Z)).
Proof.
  intros Hi. unfold default_matrix.
  rewrite clear_diagonal_lookup, decide_True by lia.
  by rewrite lookup_replicate_2.
Qed.

Lemma default_matrix_length n : length (default_matrix n) = n.
Proof.
  apply Nat.le_antisymm.
  - apply Nat.nlt_ge. intros Hlt.
    destruct (lookup_lt_is_Some_2 (default_matrix n) n Hlt) as [row Hrow].
    unfold default_matrix in Hrow.
    rewrite clear_diagonal_lookup, decide_False in Hrow by lia.
    apply lookup_lt_Some in Hrow. rewrite length_replicate in Hrow. lia.
  - destruct n as [|n]; [lia|].
    pose proof (default_matrix_row (S n) n ltac:(lia)) as Hrow.
    apply lookup_lt_Some in Hrow. lia.
Qed.

(** X7. The matrix proposed when none is stored: for n names it is the
    n x n matrix with 0 on the diagonal and 1 everywhere else. *)
Theorem default_matrix_entries (n i j : nat) :
  i < n -> j < n ->
  length (default_matrix n) = n
  /\ exists row,
       default_matrix n !! i = Some row
       /\ length row = n
       /\ row !! j = Some (if decide (i = j) then 0%Z else 1%Z).
Proof.
  intros Hi Hj. split; [apply default_matrix_length|].
  exists (<[i:=0%Z]> (replicate n 1%Z)).
  split; [by apply default_matrix_row|].
  split; [by rewrite length_insert, length_replicate|].
  rewrite list_lookup_insert, length_replicate.
  case_decide as Hd.
  - destruct Hd as [-> _]. by rewrite decide_True.
  - rewrite decide_False by (intros ->; apply Hd; split; [done|lia]).
    by apply lookup_replicate_2.
Qed.

Lemma default_matrix_entries_witness :
  1 < 3 /\ 2 < 3
  /\ length (default_matrix 3) = 3
  /\ exists row,
       default_matrix 3 !! 1 = Some row
       /\ length row = 3
       /\ row !! 2 = Some (if decide (1 = 2) then 0%Z else 1%Z).
Proof.
  assert (H1 : 1 < 3) by lia. assert (H2 : 2 < 3) by lia.
  split; [exact H1|]. split; [exact H2|].
  exact (default_matrix_entries 3 1 2 H1 H2).
Defined.

(** X8. The default matrix is acceptable: with at least two names no row of
    the default matrix sums to zero, so the row check of admin_matrix finds
    no empty row in it. *)
Theorem default_matrix_passes_check (names : list string) :
  2 <= length names ->
  first_empty_row names (default_matrix (length names))
    (seq 0 (length names)) = Ok None.
Proof.
  intros Hn. apply first_empty_row_none.
  - rewrite default_matrix_length. lia.
  - intros i row Hi Hrow Hsum.
    rewrite default_matrix_row in Hrow by lia. inversion Hrow; subst row.
    assert (H01 : Forall (fun c => c = 0%Z \/ c = 1%Z)
                    (<[i:=0%Z]> (replicate (length names) 1%Z))).
    { apply Forall_insert; [|by left]. apply Forall_replicate. by right. }
    destruct (sum_zero_one _ H01) as [_ Hzero].
    specialize (Hzero Hsum). rewrite Forall_lookup in Hzero.
    set (j := if decide (i = 0) then 1 else 0).
    assert (Hj : j < length names /\ j <> i).
    { unfold j. case_decide; lia. }
    specialize (Hzero j 1%Z).
    enough (1%Z = 0%Z) by done. apply Hzero.
    rewrite list_lookup_insert_ne by lia.
    apply lookup_replicate_2. lia.
Qed.

Lemma default_matrix_passes_check_witness :
  2 <= length ["A"; "B"; "C"]
  /\ first_empty_row ["A"; "B"; "C"] (default_matrix (length ["A"; "B"; "C"]))
       (seq 0 (length ["A"; "B"; "C"])) = Ok None.
Proof.
  assert (Hn : 2 <= length ["A"; "B"; "C"]) by (simpl; lia).
  split; [exact Hn|].
  exact (default_matrix_passes_check ["A"; "B"; "C"] Hn).
Defined.

(** ** admin_start *)

Lemma keep_first_spec lines : forall names seen,
  (forall x, x ∈ seen <-> x ∈ names) -> NoDup names ->
  NoDup (keep_first lines names seen)
  /\ (forall x, x ∈ keep_first lines names seen <-> x ∈ names \/ x ∈ lines)
  /\ exists kept, keep_first lines names seen = (names ++ kept)%list
                  /\ sublist kept lines.
Proof.
  induction lines as [|l lines IH]; intros names seen Hseen Hnd; cbn [keep_first].
  - split; [done|]. split.
    + intros x. rewrite elem_of_nil. tauto.
    + exists []. by rewrite app_nil_r.
  - destruct (decide (l ∉ seen)) as [Hnew|Hold].
    + destruct (IH (names ++ [l])%list ({[l]} ∪ seen)) as (Hnd' & Hin & kept & Heq & Hsub).
      * intros x. rewrite elem_of_union, elem_of_singleton, elem_of_app,
          list_elem_of_singleton, Hseen. tauto.
      * apply NoDup_app. split; [done|]. split; [|apply NoDup_singleton].
        intros x Hx ->%list_elem_of_singleton. by apply Hnew, Hseen.
      * split; [done|]. split.
        { intros x. rewrite Hin, elem_of_app, list_elem_of_singleton,
            elem_of_cons. tauto. }
        exists (l :: kept). split; [by rewrite Heq, <- app_assoc|].
        by apply sublist_skip.
    + apply dec_stable in Hold.
      destruct (IH names seen Hseen Hnd) as (Hnd' & Hin & kept & Heq & Hsub).
      split; [done|]. split.
      * intros x. rewrite Hin, elem_of_cons. split; [tauto|].
        intros [?|[->|?]]; [tauto| |tauto]. left. by apply Hseen.
      * exists kept. split; [done|]. by apply sublist_cons.
Qed.

Lemma keep_first_NoDup lines : forall names seen,
  NoDup lines -> (forall x, x ∈ lines -> x ∉ seen) ->
  keep_first lines names seen = (names ++ lines)%list.
Proof.
  induction lines as [|l lines IH]; intros names seen Hnd Hfresh;
    cbn [keep_first].
  - by rewrite app_nil_r.
  - apply NoDup_cons in Hnd as [Hl Hnd].
    rewrite decide_True by (apply Hfresh; by left).
    rewrite IH; [by rewrite <- app_assoc|done|].
    intros x Hx. rewrite elem_of_union, elem_of_singleton.
    intros [->|Hseen]; [done|]. apply (Hfresh x); [by right|done].
Qed.

Lemma keep_first_length lines :
  length (keep_first lines [] ∅) = size (list_to_set lines : gset string).
Proof.
  destruct (keep_first_spec lines [] ∅) as (Hnd & Hin & _).
  { intros x. rewrite elem_of_nil. set_solver. }
  { constructor. }
  rewrite <- (size_list_to_set (C := gset string)) by done.
  f_equal. apply set_eq. intros x.
  rewrite !elem_of_list_to_set, Hin, elem_of_nil. tauto.
Qed.

(** X9. The names that admin_start stores: whatever is submitted, the
    stored names are pairwise distinct and at least two, none is empty,
    they are exactly the stripped non-empty lines of the text (commas
    counting as line ends) in the order of their first occurrence, and
    storing them empties the matrix and the participants. *)
Theorem admin_start_post_names
    (splitlines : string -> list string) (strip : string -> string)
    (raw : string) (d d' : db) (names : list string) :
  admin_start_post splitlines strip raw d = (NamesSaved names, d') ->
  NoDup names
  /\ 2 <= length names
  /\ (forall x, x ∈ names <->
        exists l, l ∈ splitlines (commas_to_newlines raw)
                  /\ strip l <> "" /\ x = strip l)
  /\ (forall x, x ∈ names -> x <> "")
  /\ sublist names (submitted_lines splitlines strip raw)
  /\ d' = mk_db (Some names) (Some []) ∅.
Proof.
  unfold admin_start_post. cbv zeta.
  destruct (decide (length _ < 2)) as [Hshort|Hlong]; [discriminate|].
  intros Hout. inversion Hout; subst names d'. clear Hout.
  destruct (keep_first_spec (submitted_lines splitlines strip raw) [] ∅)
    as (Hnd & Hin & kept & Heq & Hsub).
  { intros x. rewrite elem_of_nil. set_solver. }
  { constructor. }
  assert (Hlines : forall x,
            x ∈ submitted_lines splitlines strip raw <->
            exists l, l ∈ splitlines (commas_to_newlines raw)
                      /\ strip l <> "" /\ x = strip l).
  { intros x. unfold submitted_lines. rewrite list_elem_of_fmap.
    setoid_rewrite list_elem_of_filter. split.
    - intros (l & -> & Hne & Hl). eauto.
    - intros (l & Hl & Hne & ->). eauto. }
  split; [done|]. split; [lia|]. split.
  { intros x. rewrite Hin, elem_of_nil, <- Hlines. tauto. }
  split.
  { intros x Hx. apply Hin in Hx as [Hx|Hx]; [by apply elem_of_nil in Hx|].
    apply Hlines in Hx as (l & _ & Hne & ->). done. }
  split; [|done].
  simpl in Heq. by rewrite Heq.
Qed.

Lemma admin_start_post_names_witness :
  let raw := String "A" (String "," (String "B" (String "010" (String "A" "")))) in
  admin_start_post (split_at_newlines "") (fun l => l) raw empty_db
  = (NamesSaved ["A"; "B"], mk_db (Some ["A"; "B"]) (Some []) ∅)
  /\ NoDup ["A"; "B"]
  /\ 2 <= length ["A"; "B"]
  /\ (forall x, x ∈ ["A"; "B"] <->
        exists l, l ∈ split_at_newlines "" (commas_to_newlines raw)
                  /\ (fun l => l) l <> "" /\ x = (fun l => l) l)
  /\ (forall x, x ∈ ["A"; "B"] -> x <> "")
  /\ sublist ["A"; "B"]
       (submitted_lines (split_at_newlines "") (fun l => l) raw)
  /\ mk_db (Some ["A"; "B"]) (Some []) ∅ = mk_db (Some ["A"; "B"]) (Some []) ∅.
Proof.
  intros raw.
  assert (Hrun : admin_start_post (split_at_newlines "") (fun l => l) raw
                   empty_db
                 = (NamesSaved ["A"; "B"], mk_db (Some ["A"; "B"]) (Some []) ∅))
    by (vm_compute; reflexivity).
  split; [exact Hrun|].
  exact (admin_start_post_names _ _ _ _ _ _ Hrun).
Defined.

(** X10. When admin_start refuses: the submission is refused exactly when
    it holds fewer than two distinct names, and then the database is left
    as it was; a list of at least two names that are already distinct is
    stored unchanged. *)
Theorem admin_start_post_refuses
    (splitlines : string -> list string) (strip : string -> string)
    (raw : string) (d : db) :
  (admin_start_post splitlines strip raw d = (TooFewNames, d)
   <-> size (list_to_set (submitted_lines splitlines strip raw) : gset string)
       < 2)
  /\ ((admin_start_post splitlines strip raw d).1 = TooFewNames ->
      (admin_start_post splitlines strip raw d).2 = d)
  /\ (NoDup (submitted_lines splitlines strip raw) ->
      2 <= length (submitted_lines splitlines strip raw) ->
      (admin_start_post splitlines strip raw d).1
      = NamesSaved (submitted_lines splitlines strip raw)).
Proof.
  unfold admin_start_post. cbv zeta.
  rewrite <- keep_first_length.
  split; [|split].
  - destruct (decide (length _ < 2)) as [Hshort|Hlong]; [done|].
    split; [discriminate|done].
  - by destruct (decide (length _ < 2)).
  - intros Hnd Hlen.
    rewrite (keep_first_NoDup _ [] ∅ Hnd) by set_solver. simpl.
    by rewrite decide_False by lia.
Qed.

(** ** The passwords of a batch *)

Lemma issue_passwords_done rnd assignment names : forall existing records st,
  (forall name, name ∈ names -> is_Some (assignment !! name)) ->
  exists records' st',
    issue_passwords rnd assignment names existing records st
    = (Done records', st')
    /\ shuffle_calls st' = shuffle_calls st
    /\ cursor st <= cursor st' <= cursor st + 203 * length names.
Proof.
  induction names as [|name names IH]; intros existing records st Hkeys;
    cbn [issue_passwords].
  - exists records, st. simpl. repeat split; lia.
  - destruct (gen_password_run rnd (Some existing) st)
      as (pw & st1 & -> & Hcost).
    destruct (Hkeys name) as [t ->]; [by left|].
    destruct (IH ({[pw]} ∪ existing) (<[name:=mk_info t pw]> records) st1)
      as (records' & st' & -> & Hcalls & Hcursor).
    { intros name' Hin. apply Hkeys. by right. }
    exists records', st'. split; [done|].
    cbn [length].
    destruct Hcost as [(k & Hk & ->)| ->]; unfold advance in *;
      cbn [cursor shuffle_calls] in *; split; lia.
Qed.

Lemma issue_passwords_inv rnd assignment names :
  forall existing records st records' st',
  issue_passwords rnd assignment names existing records st
  = (Done records', st') ->
  NoDup names ->
  (forall name, name ∈ names -> records !! name = None) ->
  (forall n i, records !! n = Some i -> password i ∈ existing) ->
  shared_only_fallback records ->
  dom records' = dom records ∪ list_to_set names
  /\ (forall n i, records' !! n = Some i ->
        records !! n = Some i
        \/ (n ∈ names /\ assignment !! n = Some (target i)))
  /\ shared_only_fallback records'.
Proof.
  induction names as [|name names IH];
    intros existing records st records' st' Hrun Hnd Hfresh Hissued Hshared;
    cbn [issue_passwords] in Hrun.
  - inversion Hrun; subst. cbn [list_to_set foldr].
    split; [by rewrite (right_id_L ∅ (∪))|]. split; [auto|done].
  - destruct (gen_password_cases rnd (Some existing) st)
      as (pw & st1 & Hgen & _ & Hcase).
    rewrite Hgen in Hrun.
    destruct (assignment !! name) as [t|] eqn:Ht; [|discriminate].
    apply NoDup_cons in Hnd as [Hname Hnd].
    destruct (IH _ _ _ _ _ Hrun Hnd) as (Hdom & Htargets & Hshared').
    + intros name' Hin. rewrite lookup_insert_ne; [apply Hfresh; by right|].
      intros ->. done.
    + intros n i. rewrite lookup_insert. case_decide.
      * intros Hi. inversion Hi. simpl.
        apply elem_of_union. left. by apply elem_of_singleton.
      * intros Hi. apply Hissued in Hi. apply elem_of_union. by right.
    + assert (Hnone : records !! name = None) by (apply Hfresh; by left).
      assert (Hclash : forall n i, records !! n = Some i -> password i = pw ->
                fallback_shaped pw).
      { intros n i Hi Hpw. destruct Hcase as [(a & b & _ & _ & _ & Hnew)|Hfb].
        - exfalso. apply Hnew. simpl. rewrite <- Hpw. by eapply Hissued.
        - exact Hfb. }
      intros n1 n2 i1 i2 Hne H1 H2 Hpw.
      destruct (decide (n1 = name)) as [->|Hn1];
        destruct (decide (n2 = name)) as [->|Hn2]; [done| | |].
      * rewrite lookup_insert_eq in H1. inversion H1; subst i1.
        rewrite lookup_insert_ne in H2 by done. simpl in *.
        by apply (Hclash n2 i2).
      * rewrite lookup_insert_eq in H2. inversion H2; subst i2.
        rewrite lookup_insert_ne in H1 by done. simpl in *.
        rewrite Hpw. by apply (Hclash n1 i1).
      * rewrite lookup_insert_ne in H1, H2 by done.
        by apply (Hshared n1 n2 i1 i2).
    + split; [|split; [|done]].
      * rewrite Hdom, dom_insert_L. cbn [list_to_set foldr].
        rewrite (assoc_L (∪)). f_equal. apply (comm_L (∪)).
      * intros n i Hi. destruct (Htargets n i Hi) as [Hold|[Hin Ht']].
        { rewrite lookup_insert in Hold. case_decide.
          - subst n. inversion Hold. simpl. right. split; [by left|done].
          - by left. }
        right. split; [by right|done].
Qed.

(** X11. The records of a batch: issuing the passwords for distinct names
    gives one record per name, whose target is the one of the assignment;
    two participants can only share a password that is a fallback password
    [adjective_noun_NN]. *)
Theorem issue_passwords_records
    (rnd : rng) (assignment : gmap string string) (names : list string)
    (st st' : rstate) (records : gmap string participant_info) :
  NoDup names ->
  issue_passwords rnd assignment names ∅ ∅ st = (Done records, st') ->
  dom records = list_to_set names
  /\ (forall name info, records !! name = Some info ->
        assignment !! name = Some (target info))
  /\ shared_only_fallback records.
Proof.
  intros Hnd Hrun.
  destruct (issue_passwords_inv _ _ _ _ _ _ _ _ Hrun Hnd)
    as (Hdom & Htargets & Hshared); try done.
  split; [by rewrite Hdom, dom_empty_L, (left_id_L ∅ (∪))|]. split; [|done].
  intros name info Hinfo.
  destruct (Htargets name info Hinfo) as [Hold|[_ Ht]]; [done|done].
Qed.

Lemma issue_passwords_records_witness :
  let assignment : gmap string string := {["A" := "B"; "B" := "A"]} in
  let records : gmap string participant_info :=
    {["A" := mk_info "B" "joyeux_sapin";
      "B" := mk_info "A" "joyeux_sapin_10"]} in
  NoDup ["A"; "B"]
  /\ issue_passwords (fun _ => 0) assignment ["A"; "B"] ∅ ∅ st0
     = (Done records, mk_rstate 205 0)
  /\ dom records = list_to_set ["A"; "B"]
  /\ (forall name info, records !! name = Some info ->
        assignment !! name = Some (target info))
  /\ shared_only_fallback records.
Proof.
  intros assignment records.
  assert (Hnd : NoDup ["A"; "B"]) by by_evaluation.
  assert (Hrun : issue_passwords (fun _ => 0) assignment ["A"; "B"] ∅ ∅ st0
                 = (Done records, mk_rstate 205 0))
    by (vm_compute; reflexivity).
  split; [exact Hnd|]. split; [exact Hrun|].
  exact (issue_passwords_records _ _ _ _ _ _ Hnd Hrun).
Defined.

(** X12. A batch never fails when every name has a target: it then ends
    with the records, calls no shuffle and consumes at most 203 elementary
    draws for every name; a name without a target raises KeyError. *)
Theorem issue_passwords_total
    (rnd : rng) (assignment : gmap string string) (names : list string)
    (existing : gset string) (records : gmap string participant_info)
    (st : rstate) :
  ((forall name, name ∈ names -> is_Some (assignment !! name)) ->
   exists records' st',
     issue_passwords rnd assignment names existing records st
     = (Done records', st')
     /\ shuffle_calls st' = shuffle_calls st
     /\ cursor st <= cursor st' <= cursor st + 203 * length names)
  /\ (forall key st',
        issue_passwords rnd assignment names existing records st
        = (KeyError key, st') ->
        key ∈ names /\ assignment !! key = None)
  /\ (forall e st',
        issue_passwords rnd assignment names existing records st
        <> (Failed e, st')).
Proof.
  split; [apply issue_passwords_done|].
  revert existing records st.
  induction names as [|name names IH]; intros existing records st;
    cbn [issue_passwords].
  - split; [discriminate|]. intros e st'. discriminate.
  - destruct (gen_password_run rnd (Some existing) st)
      as (pw & st1 & -> & _).
    destruct (assignment !! name) as [t|] eqn:Ht.
    + destruct (IH ({[pw]} ∪ existing) (<[name:=mk_info t pw]> records) st1)
        as [Hkey Hfail].
      split; [|done].
      intros key st' Hrun. destruct (Hkey key st' Hrun). split; [by right|done].
    + split.
      * intros key st' Hrun. inversion Hrun; subst. split; [by left|done].
      * intros e st'. discriminate.
Qed.

(** ** The routes and the stored data *)

Lemma admin_matrix_post_stored names form compat :
  admin_matrix_post names form = Ok (Stored compat) ->
  names <> []
  /\ compat = form_matrix (length names) form
  /\ forall i, i < length names ->
       exists j, j < length names /\ form i j = true.
Proof.
  intros Hout.
  assert (Hne : names <> []).
  { intros ->. discriminate. }
  split; [done|]. split.
  - revert Hout. unfold admin_matrix_post.
    destruct names as [|name0 names']; [done|]. cbv zeta.
    destruct (first_empty_row _ _ _) as [[name|]|e]; cbn [bindR];
      intros Hout; by inversion Hout.
  - intros i Hi. apply some_box_ticked. intros Hall.
    destruct (admin_matrix_post_empty_row names form i Hi Hall)
      as (i0 & name & _ & _ & _ & _ & Hrej).
    rewrite Hrej in Hout. discriminate.
Qed.

Lemma find_assignment_allowed rnd names compat max_tries st d st' :
  NoDup names ->
  find_assignment rnd names compat max_tries st = (Ok (Some d), st') ->
  dom d = list_to_set names
  /\ (forall k1 k2 v, d !! k1 = Some v -> d !! k2 = Some v -> k1 = k2)
  /\ (forall name t, d !! name = Some t ->
        exists i j row,
          names !! i = Some name /\ names !! j = Some t
          /\ compat !! i = Some row /\ row !! j = Some 1%Z).
Proof.
  intros Hnd Hrun.
  destruct (find_assignment_accepts _ _ _ _ _ _ _ Hrun)
    as (perm & targets & Hperm & Htargets & -> & Hcompat).
  pose proof (targets_Permutation names perm targets Hperm Htargets) as Ht.
  destruct (mapping_bijective names targets Hnd Ht) as (Hdom & _ & Hinj).
  split; [done|]. split; [done|].
  intros name t Hname.
  apply lookup_mapping in Hname as (i & Hi & Hti);
    [|done|by apply Permutation_length].
  destruct (Forall2_lookup_r _ _ _ _ _ Htargets Hti) as (j & Hj & Hnj).
  destruct (Hcompat i j Hj) as (row & Hrow & Hone).
  by exists i, j, row.
Qed.

Lemma admin_start_post_ok splitlines strip raw d :
  db_ok d -> db_ok (admin_start_post splitlines strip raw d).2.
Proof.
  intros Hok. unfold admin_start_post. cbv zeta.
  destruct (decide (length _ < 2)) as [Hshort|Hlong]; [done|].
  destruct (keep_first_spec (submitted_lines splitlines strip raw) [] ∅)
    as (Hnd & _).
  { intros x. rewrite elem_of_nil. set_solver. }
  { constructor. }
  split; [done|]. split; [|split; by left].
  right. unfold names_of. cbn [snd cfg_names]. lia.
Qed.

Lemma admin_matrix_store_ok form d out d' :
  db_ok d -> admin_matrix_store form d = Ok (out, d') -> db_ok d'.
Proof.
  intros (Hnd & Hcount & Hcompat & Hpart). unfold admin_matrix_store.
  destruct (admin_matrix_post (names_of d) form) as [[| |compat]|e] eqn:Hpost;
    cbn [bindR]; intros Hout; inversion Hout; subst; try done.
  destruct (admin_matrix_post_stored _ _ _ Hpost) as (Hne & -> & Hticks).
  destruct (form_matrix_square (length (names_of d)) form) as [Hlen Hrows].
  split; [done|]. split; [done|]. split; [|done].
  right. unfold compat_of, names_of in *. cbn [cfg_compat cfg_names].
  split; [done|]. split; [done|]. split; [apply form_matrix_zero_one|].
  apply Forall_lookup. intros i row Hrow Hsum.
  pose proof (lookup_lt_Some _ _ _ Hrow) as Hi. rewrite Hlen in Hi.
  rewrite form_matrix_row in Hrow by done. inversion Hrow; subst row.
  pose proof (proj1 (form_row_sum _ form i) Hsum) as Hall.
  destruct (Hticks i Hi) as (j & Hj & Hbox).
  rewrite (Hall j Hj) in Hbox. discriminate.
Qed.

(** What [admin_generate] does when the stored data are as the routes
    leave them. *)
Lemma admin_generate_run rnd d st :
  db_ok d ->
  exists out d' st',
    admin_generate rnd d st = (Done (out, d'), st')
    /\ match out with
       | MissingData =>
           d' = d /\ st' = st /\ (names_of d = [] \/ compat_of d = [])
       | NoAssignment =>
           d' = d
           /\ shuffle_calls st' = shuffle_calls st + Z.to_nat 100000
       | Generated saved =>
           d' = mk_db (cfg_names d) (cfg_compat d) saved
           /\ dom saved = list_to_set (names_of d)
           /\ (forall name info, saved !! name = Some info ->
                 exists i j row,
                   names_of d !! i = Some name
                   /\ names_of d !! j = Some (target info)
                   /\ compat_of d !! i = Some row /\ row !! j = Some 1%Z)
           /\ (forall n1 n2 i1 i2,
                 saved !! n1 = Some i1 -> saved !! n2 = Some i2 ->
                 target i1 = target i2 -> n1 = n2)
           /\ shared_only_fallback saved
       end.
Proof.
  intros (Hnd & Hcount & Hcompat & Hpart). unfold admin_generate. cbv zeta.
  destruct (names_of d) as [|name0 names'] eqn:Hnames.
  { exists MissingData, d, st. split; [done|]. auto. }
  destruct (compat_of d) as [|row0 compat'] eqn:Hcompat_eq.
  { exists MissingData, d, st. split; [done|]. auto. }
  rewrite <- Hnames, <- Hcompat_eq in *.
  destruct Hcompat as [Hempty|(Hlen & Hrows & H01 & Hnz)].
  { rewrite Hcompat_eq in Hempty. discriminate. }
  destruct (find_assignment_no_raise rnd (names_of d) (compat_of d) 100000 st
              (conj Hlen Hrows)) as ([assignment|] & st1 & Hfind).
  - rewrite Hfind.
    destruct (find_assignment_allowed _ _ _ _ _ _ _ Hnd Hfind)
      as (Hdom & Hinj & Hallowed).
    destruct (issue_passwords_done rnd assignment (names_of d) ∅ ∅ st1)
      as (records & st2 & Hissue & _).
    { intros name Hin. apply elem_of_dom. rewrite Hdom.
      by apply elem_of_list_to_set. }
    rewrite Hissue.
    destruct (issue_passwords_inv _ _ _ _ _ _ _ _ Hissue Hnd)
      as (Hdom' & Htargets & Hshared); try done.
    assert (Htarget : forall name info, records !! name = Some info ->
              assignment !! name = Some (target info)).
    { intros name info Hinfo.
      destruct (Htargets name info Hinfo) as [Hold|[_ Ht]]; done. }
    eexists (Generated records), _, st2. split; [done|].
    split; [done|].
    split; [by rewrite Hdom', dom_empty_L, (left_id_L ∅ (∪))|].
    split; [|split; [|done]].
    + intros name info Hinfo. apply Hallowed. by apply Htarget.
    + intros n1 n2 i1 i2 H1 H2 Heq.
      apply Htarget in H1, H2. rewrite Heq in H1. by eapply Hinj.
  - rewrite Hfind. exists NoAssignment, d, st1. split; [done|]. split; [done|].
    pose proof (search_run rnd (names_of d) (compat_of d)
                  (seq 0 (length (names_of d))) (Z.to_nat 100000) st)
      as (k & _ & Hcalls & _ & Hout).
    revert Hfind. unfold find_assignment.
    rewrite decide_False by (rewrite Hnames; done).
    intros Hfind. rewrite Hfind in Hcalls, Hout. simpl in Hcalls, Hout.
    rewrite Hcalls, Hout. lia.
Qed.

Lemma admin_generate_ok rnd d st out d' st' :
  db_ok d -> admin_generate rnd d st = (Done (out, d'), st') -> db_ok d'.
Proof.
  intros Hok Hrun.
  destruct (admin_generate_run rnd d st Hok) as (out0 & d0 & st0' & Hrun0 & Hpost).
  rewrite Hrun in Hrun0. inversion Hrun0; subst out0 d0 st0'.
  destruct out as [| |saved].
  - by destruct Hpost as (-> & _).
  - by destruct Hpost as (-> & _).
  - destruct Hpost as (-> & Hdom & _).
    destruct Hok as (Hnd & Hcount & Hcompat & _).
    split; [done|]. split; [done|]. split; [done|]. by right.
Qed.

Lemma reachable_db_ok splitlines strip d :
  reachable splitlines strip d -> db_ok d.
Proof.
  induction 1 as [|raw d _ IH|form d out d' _ IH Hstore
                  |rnd d st out d' st' _ IH Hgen].
  - split; [constructor|]. split; [by left|]. split; by left.
  - by apply admin_start_post_ok.
  - by eapply admin_matrix_store_ok.
  - by eapply admin_generate_ok.
Qed.

Lemma reachable_db_ab : reachable (split_at_newlines "") (fun l => l) db_ab.
Proof.
  apply (reach_matrix _ _ (fun i j => negb (Nat.eqb i j))
           (mk_db (Some ["A"; "B"]) (Some []) ∅)
           (Stored [[0; 1]; [1; 0]]%Z)).
  - apply (reach_start (split_at_newlines "") (fun l => l)
             (String "A" (String "," (String "B" ""))) empty_db).
    apply reach_empty.
  - reflexivity.
Qed.

(** X13. What the admin routes keep true: in every state of the database
    that admin_start, admin_matrix and admin_generate can produce, the
    names are pairwise distinct and none or at least two, the stored matrix
    is empty or an n x n matrix of zeros and ones in which no row sums to
    zero, and the participants are none or one for every name. *)
Theorem routes_keep_data_consistent
    (splitlines : string -> list string) (strip : string -> string) (d : db) :
  reachable splitlines strip d -> db_ok d.
Proof.
  apply reachable_db_ok.
Qed.

Lemma routes_keep_data_consistent_witness :
  reachable (split_at_newlines "") (fun l => l) db_ab /\ db_ok db_ab.
Proof.
  split; [exact reachable_db_ab|].
  exact (routes_keep_data_consistent _ _ db_ab reachable_db_ab).
Defined.

(** X14. admin_generate on the data the routes leave: it never raises; it
    leaves the database as it was when names or matrix are missing and when
    no assignment is found (after all 100000 shuffles); and what it stores
    otherwise is one record for every name, whose target is a name that the
    matrix allows to the participant, no two participants having the same
    target, and no two sharing a password unless it is a fallback
    password. *)
Theorem admin_generate_on_reachable
    (splitlines : string -> list string) (strip : string -> string)
    (rnd : rng) (d : db) (st : rstate) :
  reachable splitlines strip d ->
  exists out d' st',
    admin_generate rnd d st = (Done (out, d'), st')
    /\ match out with
       | MissingData =>
           d' = d /\ st' = st /\ (names_of d = [] \/ compat_of d = [])
       | NoAssignment =>
           d' = d
           /\ shuffle_calls st' = shuffle_calls st + Z.to_nat 100000
       | Generated saved =>
           d' = mk_db (cfg_names d) (cfg_compat d) saved
           /\ dom saved = list_to_set (names_of d)
           /\ (forall name info, saved !! name = Some info ->
                 exists i j row,
                   names_of d !! i = Some name
                   /\ names_of d !! j = Some (target info)
                   /\ compat_of d !! i = Some row /\ row !! j = Some 1%Z)
           /\ (forall n1 n2 i1 i2,
                 saved !! n1 = Some i1 -> saved !! n2 = Some i2 ->
                 target i1 = target i2 -> n1 = n2)
           /\ shared_only_fallback saved
       end.
Proof.
  intros Hreach. apply admin_generate_run. by eapply reachable_db_ok.
Qed.

Lemma admin_generate_on_reachable_witness :
  reachable (split_at_newlines "") (fun l => l) db_ab
  /\ exists out d' st',
       admin_generate (fun _ => 0) db_ab st0 = (Done (out, d'), st')
       /\ match out with
          | MissingData =>
              d' = db_ab /\ st' = st0
              /\ (names_of db_ab = [] \/ compat_of db_ab = [])
          | NoAssignment =>
              d' = db_ab
              /\ shuffle_calls st' = shuffle_calls st0 + Z.to_nat 100000
          | Generated saved =>
              d' = mk_db (cfg_names db_ab) (cfg_compat db_ab) saved
              /\ dom saved = list_to_set (names_of db_ab)
              /\ (forall name info, saved !! name = Some info ->
                    exists i j row,
                      names_of db_ab !! i = Some name
                      /\ names_of db_ab !! j = Some (target info)
                      /\ compat_of db_ab !! i = Some row
                      /\ row !! j = Some 1%Z)
              /\ (forall n1 n2 i1 i2,
                    saved !! n1 = Some i1 -> saved !! n2 = Some i2 ->
                    target i1 = target i2 -> n1 = n2)
              /\ shared_only_fallback saved
          end.
Proof.
  split; [exact reachable_db_ab|].
  exact (admin_generate_on_reachable _ _ (fun _ => 0) db_ab st0
           reachable_db_ab).
Defined.

Lemma default_row_nonzero n i :
  2 <= n -> i < n -> sum (<[i:=0%Z]> (replicate n 1%Z)) <> 0%Z.
Proof.
  intros Hn Hi Hsum.
  assert (H01 : Forall (fun c => c = 0%Z \/ c = 1%Z)
                  (<[i:=0%Z]> (replicate n 1%Z))).
  { apply Forall_insert; [|by left]. apply Forall_replicate. by right. }
  destruct (sum_zero_one _ H01) as [_ Hzero].
  specialize (Hzero Hsum). rewrite Forall_lookup in Hzero.
  set (j := if decide (i = 0) then 1 else 0).
  assert (Hj : j < n /\ j <> i) by (unfold j; case_decide; lia).
  specialize (Hzero j 1%Z).
  enough (1%Z = 0%Z) by done. apply Hzero.
  rewrite list_lookup_insert_ne by lia.
  apply lookup_replicate_2. lia.
Qed.

(** X15. The matrix that admin_matrix shows: in every state the routes can
    produce, the matrix shown for the n stored names (the stored one, or
    the default one when none is stored) has n rows of n entries that are
    0 or 1, and none of its rows sums to zero. *)
Theorem admin_matrix_get_shows
    (splitlines : string -> list string) (strip : string -> string)
    (d : db) (compat : list (list Z)) :
  reachable splitlines strip d ->
  admin_matrix_get d = Some compat ->
  length compat = length (names_of d)
  /\ Forall (fun row => length row = length (names_of d)) compat
  /\ Forall (Forall (fun c => c = 0%Z \/ c = 1%Z)) compat
  /\ Forall (fun row => sum row <> 0%Z) compat.
Proof.
  intros Hreach. apply reachable_db_ok in Hreach.
  destruct Hreach as (_ & Hcount & Hcompat & _).
  unfold admin_matrix_get.
  destruct (names_of d) as [|name0 names'] eqn:Hnames; [discriminate|].
  rewrite <- Hnames in *.
  destruct Hcount as [Hnil|Hcount]; [rewrite Hnames in Hnil; discriminate|].
  destruct (compat_of d) as [|row0 compat'] eqn:Hc.
  - intros Hshow. inversion Hshow; subst compat. clear Hshow.
    set (n := length (names_of d)) in *.
    split; [apply default_matrix_length|].
    assert (Hrow : forall i row, default_matrix n !! i = Some row ->
              i < n /\ row = <[i:=0%Z]> (replicate n 1%Z)).
    { intros i row Hrow. pose proof (lookup_lt_Some _ _ _ Hrow) as Hi.
      rewrite default_matrix_length in Hi. split; [done|].
      rewrite default_matrix_row in Hrow by done. by inversion Hrow. }
    split; [|split]; apply Forall_lookup; intros i row Hi;
      destruct (Hrow i row Hi) as [Hlt ->].
    + by rewrite length_insert, length_replicate.
    + apply Forall_insert; [|by left]. apply Forall_replicate. by right.
    + by apply default_row_nonzero.
  - intros Hshow. inversion Hshow; subst compat. rewrite <- Hc in *.
    destruct Hcompat as [Hnil|Hok]; [rewrite Hc in Hnil; discriminate|].
    exact Hok.
Qed.

Lemma admin_matrix_get_shows_witness :
  reachable (split_at_newlines "") (fun l => l) db_ab
  /\ admin_matrix_get db_ab = Some [[0; 1]; [1; 0]]%Z
  /\ length [[0; 1]; [1; 0]]%Z = length (names_of db_ab)
  /\ Forall (fun row => length row = length (names_of db_ab))
       [[0; 1]; [1; 0]]%Z
  /\ Forall (Forall (fun c => c = 0%Z \/ c = 1%Z)) [[0; 1]; [1; 0]]%Z
  /\ Forall (fun row => sum row <> 0%Z) [[0; 1]; [1; 0]]%Z.
Proof.
  assert (Hshow : admin_matrix_get db_ab = Some [[0; 1]; [1; 0]]%Z)
    by reflexivity.
  split; [exact reachable_db_ab|]. split; [exact Hshow|].
  exact (admin_matrix_get_shows _ _ db_ab _ reachable_db_ab Hshow).
Defined.

(** ** The database URL *)

Lemma prefix_append p : forall s,
  String.prefix p s = true <-> exists rest, s = p +:+ rest.
Proof.
  induction p as [|a p IH]; intros s.
  - split; [|by destruct s]. intros _. by exists s.
  - destruct s as [|b s]; simpl.
    + split; [discriminate|]. intros [rest Hrest]. discriminate.
    + destruct (ascii_dec a b) as [->|Hne].
      * rewrite IH. split; intros [rest Hrest]; exists rest.
        { by rewrite Hrest. }
        { by injection Hrest. }
      * split; [discriminate|]. intros [rest Hrest].
        injection Hrest as Hab _. by destruct Hne.
Qed.

Lemma string_drop_append p rest :
  string_drop (String.length p) (p +:+ rest) = rest.
Proof.
  induction p as [|a p IH]; simpl; [by destruct rest|done].
Qed.

Lemma replace_first_unfold old new s :
  replace_first old new s
  = if String.prefix old s then new +:+ string_drop (String.length old) s
    else match s with
         | EmptyString => EmptyString
         | String c s' => String c (replace_first old new s')
         end.
Proof.
  by destruct s.
Qed.

Lemma replace_first_prefix old new rest :
  replace_first old new (old +:+ rest) = new +:+ rest.
Proof.
  assert (Hp : String.prefix old (old +:+ rest) = true).
  { apply prefix_append. by exists rest. }
  by rewrite replace_first_unfold, Hp, string_drop_append.
Qed.

Lemma database_url_cases env :
  (exists rest,
     (match env with Some s => s | None => "" end = "postgres://" +:+ rest
      \/ match env with Some s => s | None => "" end
         = "postgresql://" +:+ rest)
     /\ database_url env = "postgresql+psycopg://" +:+ rest)
  \/ (String.prefix "postgres://" (database_url env) = false
      /\ String.prefix "postgresql://" (database_url env) = false
      /\ database_url env
         = match env with
           | None | Some EmptyString => sqlite_url
           | Some s => s
           end).
Proof.
  destruct env as [[|c s]|]; [right; by repeat split| |right; by repeat split].
  unfold database_url. cbv zeta.
  destruct (String.prefix "postgres://" (String c s)) eqn:H1.
  - left. apply prefix_append in H1 as [rest Hrest]. exists rest.
    rewrite Hrest, replace_first_prefix. split; [by left|done].
  - destruct (String.prefix "postgresql://" (String c s)) eqn:H2.
    + apply prefix_append in H2 as [rest Hrest].
      assert (H3 : String.prefix "postgresql+" (String c s) = false).
      { rewrite Hrest. reflexivity. }
      rewrite H3. cbn [negb andb]. left. exists rest.
      rewrite Hrest, replace_first_prefix. split; [by right|done].
    + cbn [andb]. right. by rewrite H1, H2.
Qed.

(** X16. The scheme of the database URL: whatever the environment holds,
    the URL handed to the engine never begins with [postgres://] or
    [postgresql://], and normalising it again changes nothing; without a
    value, or with an empty one, it is the local SQLite file. *)
Theorem database_url_scheme (env : option string) :
  String.prefix "postgres://" (database_url env) = false
  /\ String.prefix "postgresql://" (database_url env) = false
  /\ database_url (Some (database_url env)) = database_url env
  /\ database_url None = sqlite_url
  /\ database_url (Some "") = sqlite_url.
Proof.
  assert (Hscheme : String.prefix "postgres://" (database_url env) = false
                    /\ String.prefix "postgresql://" (database_url env) = false).
  { destruct (database_url_cases env)
      as [(rest & _ & ->)|(H1 & H2 & _)]; [|done].
    split; reflexivity. }
  destruct Hscheme as [H1 H2].
  split; [done|]. split; [done|]. split; [|split; reflexivity].
  destruct (database_url_cases (Some (database_url env)))
    as [(rest & [Hrest|Hrest] & _)|(_ & _ & ->)].
  - assert (Hp : String.prefix "postgres://" (database_url env) = true)
      by (apply prefix_append; eauto).
    congruence.
  - assert (Hp : String.prefix "postgresql://" (database_url env) = true)
      by (apply prefix_append; eauto).
    congruence.
  - destruct (database_url env) as [|c s] eqn:Hurl; [|done].
    exfalso.
    destruct (database_url_cases env) as [(rest & _ & Hr)|(_ & _ & Hr)];
      rewrite Hurl in Hr; [discriminate|].
    destruct env as [[|c s]|]; discriminate.
Qed.

(** X17. Postgres URLs get the psycopg driver and keep the rest: a value
    [postgres://rest] or [postgresql://rest] becomes
    [postgresql+psycopg://rest], and every other non-empty value is used
    as it is. *)
Theorem database_url_rewrites (rest s : string) :
  database_url (Some ("postgres://" +:+ rest)) = "postgresql+psycopg://" +:+ rest
  /\ database_url (Some ("postgresql://" +:+ rest))
     = "postgresql+psycopg://" +:+ rest
  /\ (s <> "" ->
      String.prefix "postgres://" s = false ->
      String.prefix "postgresql://" s = false ->
      database_url (Some s) = s).
Proof.
  split; [|split].
  - destruct (database_url_cases (Some ("postgres://" +:+ rest)))
      as [(rest' & [Hrest|Hrest] & ->)|(H1 & _ & Hsame)].
    + vm_compute in Hrest. injection Hrest as Heq. by rewrite Heq.
    + vm_compute in Hrest. congruence.
    + rewrite Hsame in H1.
      change (String.prefix "postgres://" ("postgres://" +:+ rest) = false)
        in H1.
      assert (Hp : String.prefix "postgres://" ("postgres://" +:+ rest) = true)
        by (apply prefix_append; eauto).
      congruence.
  - destruct (database_url_cases (Some ("postgresql://" +:+ rest)))
      as [(rest' & [Hrest|Hrest] & ->)|(_ & H2 & Hsame)].
    + vm_compute in Hrest. congruence.
    + vm_compute in Hrest. injection Hrest as Heq. by rewrite Heq.
    + rewrite Hsame in H2.
      change (String.prefix "postgresql://" ("postgresql://" +:+ rest) = false)
        in H2.
      assert (Hp : String.prefix "postgresql://" ("postgresql://" +:+ rest)
                   = true)
        by (apply prefix_append; eauto).
      congruence.
  - intros Hne H1 H2. unfold database_url.
    destruct s as [|c s]; [done|]. cbv zeta. by rewrite H1, H2.
Qed.

(** ** The order of the names kept *)

Lemma keep_first_acc lines : forall names seen,
  keep_first lines names seen = (names ++ keep_first lines [] seen)%list.
Proof.
  induction lines as [|l lines IH]; intros names seen; cbn [keep_first].
  - by rewrite app_nil_r.
  - destruct (decide (l ∉ seen)); [|apply IH].
    rewrite (IH (names ++ [l])%list), (IH ([] ++ [l])%list).
    by rewrite <- app_assoc.
Qed.

Lemma keep_first_filter lines : forall seen seen' : gset string,
  keep_first lines [] (seen ∪ seen')
  = keep_first (filter (fun x => x ∉ seen) lines) [] seen'.
Proof.
  induction lines as [|l lines IH]; intros seen seen'; [done|].
  cbn [keep_first].
  destruct (decide (l ∈ seen)) as [Hin|Hout].
  - rewrite filter_cons_False by (intros Hn; by apply Hn).
    rewrite decide_False by (intros Hn; apply Hn, elem_of_union; by left).
    apply IH.
  - rewrite filter_cons_True by done. cbn [keep_first].
    destruct (decide (l ∈ seen')) as [Hin'|Hout'].
    + rewrite decide_False by (intros Hn; apply Hn, elem_of_union; by right).
      rewrite decide_False by (intros Hn; by apply Hn).
      apply IH.
    + rewrite decide_True
        by (rewrite elem_of_union; intros [?|?]; done).
      rewrite decide_True by done.
      rewrite (keep_first_acc _ ([] ++ [l])%list),
        (keep_first_acc (filter _ lines) ([] ++ [l])%list).
      f_equal.
      replace ({[l]} ∪ (seen ∪ seen')) with (seen ∪ ({[l]} ∪ seen'))
        by (apply set_eq; intros x;
            rewrite !elem_of_union, !elem_of_singleton; tauto).
      apply IH.
Qed.

(** X18. The names kept by admin_start are first occurrences: the loop
    keeps the first line and then treats the remaining lines, without the
    later copies of that line, in the same way. *)
Theorem keep_first_first_occurrence (l : string) (lines : list string) :
  keep_first (l :: lines) [] ∅
  = l :: keep_first (filter (fun x => x <> l) lines) [] ∅.
Proof.
  cbn [keep_first]. rewrite decide_True by apply not_elem_of_empty.
  rewrite keep_first_acc. cbn [app]. f_equal.
  rewrite keep_first_filter.
  f_equal. apply list_filter_iff. intros x.
  by rewrite elem_of_singleton.
Qed.
